(** * MicrochipCoff, Examples/C18/PIC18Extd/src/main.c

    A shallow embedding of the PIC18 timer example: the high priority
    interrupt routine [InterruptHandlerHigh] toggles RB0 and raises
    [Flags.Bit.Timeout]; [doloop] polls that bit, clears it and copies RB0
    to RB7.

    The file has three layers.
    - The data: byte sized objects (special function registers, the
      [Flags] union, the register locals of [doloop]) as 8-bit [Z]
      values addressed by name, the two [TimerState] variables, and the
      16 byte [buffer].
    - The statements: a small state-and-log monad [prog]; every load and
      store of the source appends an [event], so that the order of the
      side effects and the identity of the writer can be stated.
    - The execution: [stmt] runs the statement at one program point of
      [doloop]; [step] interleaves those statements with runs of the
      interrupt routine at every statement boundary.  No statement of
      the loop makes more than one access to the shared [Flags] byte, so
      for the flag protocol statement boundaries are as fine as
      instruction boundaries; line 116, which reads one bit of [LATB]
      and writes another, is taken as one step. *)

From stdpp Require Import base list.
From Stdlib Require Import ZArith Lia Bool.

Local Open Scope Z_scope.

(** ** Data *)

(** [enum TimerState { Running, Stopped }] *)
Inductive TimerState : Set := Running | Stopped.

Definition enum_val (s : TimerState) : Z :=
  match s with Running => 0 | Stopped => 1 end.

(** The byte sized objects the program touches: the special function
    registers, the global [union TimerFlags Flags] (through its [Byte]
    member) and the two [register] locals of [doloop]. *)
Inductive reg : Set :=
  | INTCON | INTCON2 | RCON | TMR0H | TMR0L | T0CON | TRISB | LATB
  | Flags | flg | loop.

#[global] Instance reg_eq_dec : EqDecision reg.
Proof. solve_decision. Defined.

#[global] Instance TimerState_eq_dec : EqDecision TimerState.
Proof. solve_decision. Defined.

(** Modelled from the spec: the device header <p18cxxx.h> is not part of
    the repository.  The spec only says that the overflow-pending
    indicator, the interrupt enables and the two output lines are single
    bits of their registers; the positions below are those of the
    PIC18F1230 register map ([INTCON = 0x20] in [main] is the TMR0
    enable, bit 5).  [Timeout] is the first bit-field of the union, which
    MPLAB C18 allocates at the least significant bit. *)
Definition TMR0IF : Z := 2.
Definition TMR0IE : Z := 5.
Definition GIEH : Z := 7.
Definition IPEN : Z := 7.
Definition LATB0 : Z := 0.
Definition LATB7 : Z := 7.
Definition Timeout : Z := 0.

Record machine : Type := Machine {
  bytes : reg → Z;            (* SFRs, Flags.Byte, flg, loop *)
  State : TimerState;         (* the global State *)
  state : TimerState;         (* the static local of doloop *)
  buffer : list Z             (* char buffer[16] *)
}.

Definition upd (r : reg) (v : Z) (f : reg → Z) : reg → Z :=
  λ r', if decide (r' = r) then v else f r'.

Definition set_bytes (f : reg → Z) (m : machine) : machine :=
  Machine f (State m) (state m) (buffer m).
Definition set_State (s : TimerState) (m : machine) : machine :=
  Machine (bytes m) s (state m) (buffer m).
Definition set_state (s : TimerState) (m : machine) : machine :=
  Machine (bytes m) (State m) s (buffer m).
Definition set_buffer (b : list Z) (m : machine) : machine :=
  Machine (bytes m) (State m) (state m) b.

(** Reading and writing one bit of a byte. *)
Definition bit (m : machine) (r : reg) (i : Z) : bool :=
  Z.testbit (bytes m r) i.

Definition with_bit (v : Z) (i : Z) (b : bool) : Z :=
  if b then Z.setbit v i else Z.clearbit v i.

(** A machine is well formed when every byte is a byte and the buffer
    has its declared size. *)
Definition wf (m : machine) : Prop :=
  (∀ r, 0 ≤ bytes m r < 256) ∧ length (buffer m) = 16%nat.

(** ** Events *)

Inductive object : Set :=
  | Byte (r : reg)
  | Bit (r : reg) (i : Z)
  | GlobalState
  | StaticState
  | Buf (i : nat).

Inductive event : Set :=
  | Rd (o : object) (v : Z)
  | Wr (o : object) (v : Z).

(** ** The statement monad: state passing plus an access log *)

Definition prog (A : Type) : Type := machine → A * machine * list event.

#[global] Instance prog_ret : MRet prog := λ A a m, (a, m, []).
#[global] Instance prog_bind : MBind prog := λ A B k p m,
  let '(a, m1, e1) := p m in
  let '(b, m2, e2) := k a m1 in
  (b, m2, e1 ++ e2).

Definition result {A} (x : A * machine * list event) : A := x.1.1.
Definition final {A} (x : A * machine * list event) : machine := x.1.2.
Definition log {A} (x : A * machine * list event) : list event := x.2.

Definition load (r : reg) : prog Z :=
  λ m, (bytes m r, m, [Rd (Byte r) (bytes m r)]).

Definition store (r : reg) (v : Z) : prog unit :=
  λ m, (tt, set_bytes (upd r (v mod 256) (bytes m)) m, [Wr (Byte r) (v mod 256)]).

Definition load_bit (r : reg) (i : Z) : prog bool :=
  λ m, (bit m r i, m, [Rd (Bit r i) (Z.b2z (bit m r i))]).

Definition store_bit (r : reg) (i : Z) (b : bool) : prog unit :=
  λ m, (tt, set_bytes (upd r (with_bit (bytes m r) i b) (bytes m)) m,
        [Wr (Bit r i) (Z.b2z b)]).

Definition load_state : prog TimerState :=
  λ m, (state m, m, [Rd StaticState (enum_val (state m))]).

Definition store_state (s : TimerState) : prog unit :=
  λ m, (tt, set_state s m, [Wr StaticState (enum_val s)]).

Definition store_State (s : TimerState) : prog unit :=
  λ m, (tt, set_State s m, [Wr GlobalState (enum_val s)]).

Definition skip : prog unit := mret ().

(** ** The interrupt routine (lines 164-172) *)

Definition InterruptHandlerHigh : prog unit :=
  pending ← load_bit INTCON TMR0IF;
  if (pending : bool) then
    store_bit INTCON TMR0IF false;;
    store_bit Flags Timeout true;;
    b ← load_bit LATB LATB0;
    store_bit LATB LATB0 (negb b)
  else skip.

(** ** The two library routines [doloop] calls

    Modelled from the spec: <string.h> is not part of the repository; the
    spec calls lines 120-123 "string-comparison/copy code", and the two
    routines are given their ISO C meaning.  A C string in memory is the
    list of its bytes followed by the terminating NUL. *)

Definition cstring (chars : list Z) : list Z := chars ++ [0].

Definition abc : list Z := cstring [97; 98; 99].
Definition def : list Z := cstring [100; 101; 102].

(** [strcmp s1 s2] walks both byte sequences until they differ or the
    terminator of both is met; [None] is a read past the end of one of
    the two arrays. *)
Fixpoint strcmp (s1 s2 : list Z) : option Z :=
  match s1, s2 with
  | c1 :: r1, c2 :: r2 =>
      if decide (c1 = c2)
      then if decide (c1 = 0) then Some 0 else strcmp r1 r2
      else Some (c1 - c2)
  | _, _ => None
  end.

(** How many bytes of [s2] the comparison looks at. *)
Fixpoint strcmp_span (s1 s2 : list Z) : nat :=
  match s1, s2 with
  | c1 :: r1, c2 :: r2 =>
      if decide (c1 = c2)
      then if decide (c1 = 0) then 1%nat else S (strcmp_span r1 r2)
      else 1%nat
  | _, _ => 0%nat
  end.

(** The [n] bytes [strncpy (dest, src, n)] stores: the bytes of [src] up
    to its terminator, then NULs up to [n]; no NUL when [src] has [n]
    bytes or more before its terminator. *)
Fixpoint strncpy_bytes (src : list Z) (n : nat) : list Z :=
  match n with
  | O => []
  | S n' =>
      match src with
      | c :: r => if decide (c = 0) then replicate n 0 else c :: strncpy_bytes r n'
      | [] => replicate n 0
      end
  end.

Definition strcmp_buffer (s1 : list Z) : prog (option Z) :=
  λ m, (strcmp s1 (buffer m), m,
        imap (λ i v, Rd (Buf i) v) (take (strcmp_span s1 (buffer m)) (buffer m))).

Definition strncpy_buffer (off : nat) (src : list Z) (n : nat) : prog unit :=
  λ m, (tt, set_buffer (list_inserts off (strncpy_bytes src n) (buffer m)) m,
        imap (λ i v, Wr (Buf (off + i)) v) (strncpy_bytes src n)).

(** ** [doloop] (lines 104-126) *)

(** [static union TimerFlags getFlags (void) { return Flags; }] *)
Definition getFlags : prog Z := load Flags.

(** The body of the [while], as the source nests it. *)
Definition doloop_body : prog unit :=
  f ← getFlags;
  store flg f;;
  t ← load_bit flg Timeout;
  (if (t : bool) then
     store_state Running;;
     store_bit Flags Timeout false;;
     b ← load_bit LATB LATB0;
     store_bit LATB LATB7 b
   else
     store_state Stopped);;
  r ← strcmp_buffer abc;
  (if decide ((r : option Z) = Some 0) then strncpy_buffer 3 def 3 else skip);;
  s ← load_state;
  store_State s.

(** Program points of [doloop], named after the source line of the
    statement that runs next. *)
Inductive pc : Set :=
  | L109   (* while (loop) *)
  | L111   (* flg = getFlags (); *)
  | L112   (* if (flg.Bit.Timeout == 1) *)
  | L114   (* state = Running; *)
  | L115   (* Flags.Bit.Timeout = 0; *)
  | L116   (* LATBbits.LATB7 = LATBbits.LATB0; *)
  | L119   (* state = Stopped; *)
  | L120   (* if (strcmp ("abc", buffer) == 0) *)
  | L122   (* (void) strncpy (buffer + 3, "def", 3); *)
  | L124   (* State = state; *)
  | L126.  (* return *)

#[global] Instance pc_eq_dec : EqDecision pc.
Proof. solve_decision. Defined.

(** One statement: its effect, and the program point that follows. *)
Definition stmt (p : pc) : prog pc :=
  match p with
  | L109 => l ← load loop; mret (if decide (l = 0) then L126 else L111)
  | L111 => f ← getFlags; store flg f;; mret L112
  | L112 => t ← load_bit flg Timeout; mret (if (t : bool) then L114 else L119)
  | L114 => store_state Running;; mret L115
  | L115 => store_bit Flags Timeout false;; mret L116
  | L116 => b ← load_bit LATB LATB0; store_bit LATB LATB7 b;; mret L120
  | L119 => store_state Stopped;; mret L120
  | L120 => r ← strcmp_buffer abc;
            mret (if decide ((r : option Z) = Some 0) then L122 else L124)
  | L122 => strncpy_buffer 3 def 3;; mret L124
  | L124 => s ← load_state; store_State s;; mret L109
  | L126 => mret L126
  end.

Definition config : Type := pc * machine.

(** [run n c] lets the loop run [n] statements with no interrupt. *)
Fixpoint run (n : nat) (c : config) : config * list event :=
  match n with
  | O => (c, [])
  | S n' =>
      let '(p', m', es) := stmt c.1 c.2 in
      let '(c'', es') := run n' (p', m') in
      (c'', es ++ es')
  end.

(** [doloop (arg)]: the argument is converted to [char] and the loop is
    entered at its test. *)
Definition call_doloop (arg : Z) : prog pc :=
  store loop arg;; mret L109.

(** ** [main] (lines 131-145) *)

Definition main_init : prog unit :=
  store Flags 0;;
  store INTCON 0x20;;
  store INTCON2 0x84;;
  store_bit RCON IPEN true;;
  store TMR0H 0;;
  store TMR0L 0;;
  store T0CON 0x82;;
  store_bit INTCON GIEH true;;
  store TRISB 0.

Definition main : prog pc := main_init;; call_doloop 1.

(** The configuration in which [main] enters [doloop], from power-on
    contents [m0]. *)
Definition boot (m0 : machine) : config := (result (main m0), final (main m0)).

(** ** Interrupts

    Timer 0 overflowing sets [INTCON.TMR0IF] in hardware; with [GIEH] and
    [TMR0IE] set the processor then vectors to [InterruptHandlerHigh],
    which runs to completion (a high priority routine is not preempted).
    One such overflow-and-service is one [Irq] step; it may fall between
    any two statements of [doloop]. *)

Definition overflow (m : machine) : machine :=
  set_bytes (upd INTCON (Z.setbit (bytes m INTCON) TMR0IF) (bytes m)) m.

Definition irq_enabled (m : machine) : Prop :=
  bit m INTCON GIEH = true ∧ bit m INTCON TMR0IE = true.

Definition service (m : machine) : unit * machine * list event :=
  InterruptHandlerHigh (overflow m).

Inductive label : Set :=
  | Tick (p p' : pc) (es : list event)
  | Irq (es : list event).

Inductive step : config → label → config → Prop :=
  | step_tick p m :
      p ≠ L126 →
      step (p, m) (Tick p (result (stmt p m)) (log (stmt p m)))
           (result (stmt p m), final (stmt p m))
  | step_irq p m :
      irq_enabled m →
      step (p, m) (Irq (log (service m))) (p, final (service m)).

Inductive exec : config → list label → config → Prop :=
  | exec_nil c : exec c [] c
  | exec_cons c l c' ls c'' :
      step c l c' → exec c' ls c'' → exec c (l :: ls) c''.

(** An iteration observes the flag when the test of line 112 succeeds. *)
Definition observes (l : label) : bool :=
  match l with
  | Tick L112 L114 _ => true
  | _ => false
  end.

Definition is_irq (l : label) : bool :=
  match l with Irq _ => true | _ => false end.

Definition observations (tr : list label) : nat := length (List.filter observes tr).
Definition overflows (tr : list label) : nat := length (List.filter is_irq tr).

(** ** Derived notions used by the statements below *)

(** One timer overflow, serviced. *)
Definition overflow_event (m : machine) : machine := final (service m).

(** One pass through the body of the loop, not interrupted. *)
Definition iteration (m : machine) : machine := final (doloop_body m).

(** Memory after reset: every byte zero (file-scope objects of the
    program are zero-initialised, so [State] is [Running]). *)
Definition power_on : machine :=
  Machine (λ _, 0) Running Running (replicate 16 0).

(** A schedule says, slot by slot, whether the loop runs its next
    statement ([T]) or the timer overflows and is serviced ([I]). *)
Inductive slot : Set := T | I.

Fixpoint replay (s : list slot) (c : config) : list label * config :=
  match s with
  | [] => ([], c)
  | T :: s' =>
      let r := stmt c.1 c.2 in
      let '(tr, c') := replay s' (result r, final r) in
      (Tick c.1 (result r) (log r) :: tr, c')
  | I :: s' =>
      let r := service c.2 in
      let '(tr, c') := replay s' (c.1, final r) in
      (Irq (log r) :: tr, c')
  end.

Fixpoint replay_ok (s : list slot) (c : config) : bool :=
  match s with
  | [] => true
  | T :: s' =>
      bool_decide (c.1 ≠ L126)
      && replay_ok s' (result (stmt c.1 c.2), final (stmt c.1 c.2))
  | I :: s' =>
      bit c.2 INTCON GIEH && bit c.2 INTCON TMR0IE
      && replay_ok s' (c.1, final (service c.2))
  end.

(** The no-loss property as the specification words it: whatever has
    happened so far, letting the loop run on without further overflows
    brings the number of observing iterations up to the number of
    overflow events, one for one. *)
Definition no_loss : Prop :=
  ∀ m0 tr c, exec (boot m0) tr c →
    ∃ tr' c', exec c tr' c' ∧ overflows tr' = 0%nat ∧
              observations (tr ++ tr') = overflows (tr ++ tr').

(** The window of [doloop] between a successful test of the flag and the
    store that clears it. *)
Definition in_window (p : pc) : bool :=
  match p with L114 | L115 => true | _ => false end.

(** What one uninterrupted pass through the body computes, in closed
    form ([doloop_body_eq] below proves it equal to [doloop_body]). *)
Definition body_bytes (m : machine) : reg → Z :=
  let f := upd flg (bytes m Flags mod 256) (bytes m) in
  if bit m Flags Timeout
  then upd LATB (with_bit (bytes m LATB) LATB7 (bit m LATB LATB0))
         (upd Flags (with_bit (bytes m Flags) Timeout false) f)
  else f.

Definition body_state (m : machine) : TimerState :=
  if bit m Flags Timeout then Running else Stopped.

Definition body_buffer (m : machine) : list Z :=
  if decide (strcmp abc (buffer m) = Some 0)
  then list_inserts 3 [100; 101; 102] (buffer m)
  else buffer m.

Definition body_log (m : machine) : list event :=
  [ Rd (Byte Flags) (bytes m Flags);
    Wr (Byte flg) (bytes m Flags mod 256);
    Rd (Bit flg Timeout) (Z.b2z (bit m Flags Timeout)) ]
  ++ (if bit m Flags Timeout
      then [ Wr StaticState 0;
             Wr (Bit Flags Timeout) 0;
             Rd (Bit LATB LATB0) (Z.b2z (bit m LATB LATB0));
             Wr (Bit LATB LATB7) (Z.b2z (bit m LATB LATB0)) ]
      else [ Wr StaticState 1 ])
  ++ imap (λ i v, Rd (Buf i) v) (take (strcmp_span abc (buffer m)) (buffer m))
  ++ (if decide (strcmp abc (buffer m) = Some 0)
      then [ Wr (Buf 3) 100; Wr (Buf 4) 101; Wr (Buf 5) 102 ]
      else [])
  ++ [ Rd StaticState (enum_val (body_state m));
       Wr GlobalState (enum_val (body_state m)) ].

(** The number of statements one pass executes. *)
Definition body_length (m : machine) : nat :=
  let test := if bit m Flags Timeout then 2%nat else 0%nat in
  let copy := if decide (strcmp abc (buffer m) = Some 0) then 1%nat else 0%nat in
  (5 + test + copy)%nat.

(** A label that stores into the buffer. *)
Definition writes_buffer (l : label) : bool :=
  match l with
  | Tick L122 _ _ => true
  | _ => false
  end.

Definition buffer_writes (tr : list label) : nat :=
  length (List.filter writes_buffer tr).

(** What the test of line 112 sees in a pass that starts in [m]: the
    [Timeout] bit of the copy that line 111 has just taken. *)
Definition observed (m : machine) : bool :=
  bit (final (stmt L111 m)) flg Timeout.

(** A buffer that holds the C string "abc". *)
Definition abc_machine : machine :=
  set_buffer ([97; 98; 99; 0] ++ replicate 12 0) power_on.

(** The labels of [n] statements run with no interrupt (the
    configuration they end in is [(run n c).1]). *)
Fixpoint ticks (n : nat) (c : config) : list label :=
  match n with
  | O => []
  | S n' =>
      let r := stmt c.1 c.2 in
      Tick c.1 (result r) (log r) :: ticks n' (result r, final r)
  end.

(** The loop is still inside [doloop], with a nonzero [loop]. *)
Definition looping (c : config) : Prop :=
  c.1 ≠ L126 ∧ bytes c.2 loop ≠ 0.

(** Control flow of [doloop]: the program point that follows [p] in
    machine [m] ([tick_next] below proves that [stmt] goes there). *)
Definition next (p : pc) (m : machine) : pc :=
  match p with
  | L109 => if decide (bytes m loop = 0) then L126 else L111
  | L111 => L112
  | L112 => if bit m flg Timeout then L114 else L119
  | L114 => L115
  | L115 => L116
  | L116 => L120
  | L119 => L120
  | L120 => if decide (strcmp abc (buffer m) = Some 0) then L122 else L124
  | L122 => L124
  | L124 => L109
  | L126 => L126
  end.

(** The observation a configuration still owes: one when the flag is
    set (or a set flag has been read and is about to be tested), none
    inside the window, where the coming clear cancels whatever is set. *)
Definition credit (c : config) : nat :=
  match c.1 with
  | L114 | L115 => 0%nat
  | L112 => Nat.b2n (bit c.2 flg Timeout || bit c.2 Flags Timeout)
  | _ => Nat.b2n (bit c.2 Flags Timeout)
  end.

(** Within [N] statements run without interrupt, exactly one is an
    observation. *)
Definition observes_within (N : nat) (c : config) : Prop :=
  ∃ n, (n ≤ N)%nat ∧ observations (ticks n c) = 1%nat.

(** A schedule in which a second overflow is serviced after line 112 has
    seen the flag of the first and before line 115 clears it. *)
Definition dropped_schedule : list slot :=
  [T; I; T; T; I; T; T; T; T; T].

(** A schedule in which two overflows are serviced before line 111 reads
    the flag. *)
Definition merged_schedule : list slot :=
  [T; I; I; T; T; T; T; T; T; T].

(** The flag is set and the loop goes on. *)
Definition pending (m : machine) : Prop :=
  bit m Flags Timeout = true ∧ bytes m loop ≠ 0.

(** The control-flow part of a label: the program points of a loop
    statement, [None] for a run of the interrupt routine. *)
Definition shape (l : label) : option (pc * pc) :=
  match l with
  | Tick p p' _ => Some (p, p')
  | Irq _ => None
  end.

(** The statements of the flag-set branch (lines 114-116). *)
Definition in_branch (p : pc) : bool :=
  match p with L114 | L115 | L116 => true | _ => false end.

(** Two machines that hold the same values (the bytes compared name by
    name). *)
Definition same (m m' : machine) : Prop :=
  (∀ r, bytes m r = bytes m' r)
  ∧ State m = State m' ∧ state m = state m' ∧ buffer m = buffer m'.

(** Within [N] statements run without interrupt the loop stands at line
    120, just past the copy, with LED-B equal to LED-A. *)
Definition catches_up (N : nat) (c : config) : Prop :=
  ∃ n, (n ≤ N)%nat
       ∧ (run n c).1.1 = L120
       ∧ bit (run n c).1.2 LATB LATB7 = bit (run n c).1.2 LATB LATB0.

(** * Properties *)

(** ** Bits *)

Lemma testbit_with_bit_eq v i b : 0 ≤ i → Z.testbit (with_bit v i b) i = b.
Proof.
  intros Hi. destruct b; cbn.
  - by apply Z.setbit_eq.
  - apply Z.clearbit_eq.
Qed.

Lemma testbit_with_bit_ne v i j b :
  0 ≤ i → i ≠ j → Z.testbit (with_bit v i b) j = Z.testbit v j.
Proof.
  intros Hi Hij. destruct b; cbn.
  - by apply Z.setbit_neq.
  - by apply Z.clearbit_neq.
Qed.

Lemma with_bit_range v i b : 0 ≤ v < 256 → 0 ≤ i < 8 → 0 ≤ with_bit v i b < 256.
Proof.
  intros Hv Hi.
  assert (Hle : 0 ≤ with_bit v i b).
  { apply Z.bits_iff_nonneg_ex. exists 8. intros j Hj.
    rewrite testbit_with_bit_ne by lia.
    apply (Z.bits_above_log2 v j); [lia|].
    destruct (decide (v = 0)) as [->|]; [cbn; lia|].
    assert (Z.log2 v < 8) by (apply Z.log2_lt_pow2; lia). lia. }
  split; [done|].
  destruct (decide (with_bit v i b = 0)) as [->|Hnz]; [lia|].
  apply (Z.log2_lt_pow2 _ 8); [lia|].
  destruct (Z.lt_ge_cases (Z.log2 (with_bit v i b)) 8) as [|Hge]; [done|exfalso].
  assert (Hbit : Z.testbit (with_bit v i b) (Z.log2 (with_bit v i b)) = true)
    by (apply Z.bit_log2; lia).
  rewrite testbit_with_bit_ne in Hbit by lia.
  rewrite Z.bits_above_log2 in Hbit; [done|lia|].
  destruct (decide (v = 0)) as [->|]; [cbn; lia|].
  assert (Z.log2 v < 8) by (apply Z.log2_lt_pow2; lia). lia.
Qed.

(** ** Running programs *)

Lemma upd_eq r v f : upd r v f r = v.
Proof. unfold upd. by rewrite decide_True. Qed.

Lemma upd_ne r v f r' : r' ≠ r → upd r v f r' = f r'.
Proof. intros H. unfold upd. by rewrite decide_False. Qed.

(** Unfolds the monad and the primitives down to registers and bits,
    leaving [upd], [with_bit] and the bit operations of [Z] in place. *)
Ltac unfold_prog :=
  cbv [InterruptHandlerHigh doloop_body stmt getFlags call_doloop main main_init
       service overflow_event iteration overflow boot
       mbind prog_bind mret prog_ret skip
       load store load_bit store_bit load_state store_state store_State
       strcmp_buffer strncpy_buffer
       final log result fst snd
       set_bytes set_state set_State set_buffer bytes State state buffer bit] in *.

Ltac upd_simpl :=
  repeat first [ rewrite upd_eq in * | rewrite upd_ne in * by done ].

Ltac side := solve [done | cbv; congruence].

Ltac bits_simpl :=
  repeat first
    [ rewrite testbit_with_bit_eq in * by side
    | rewrite testbit_with_bit_ne in * by side
    | rewrite Z.setbit_eq in * by side
    | rewrite Z.setbit_neq in * by side ].

Ltac prog_simpl :=
  unfold_prog; repeat progress (upd_simpl; bits_simpl; cbv beta iota zeta in * ).

(** ** The interrupt routine *)

Lemma handler_idle m :
  bit m INTCON TMR0IF = false →
  InterruptHandlerHigh m = ((), m, [Rd (Bit INTCON TMR0IF) 0]).
Proof.
  intros H. unfold InterruptHandlerHigh, mbind, prog_bind, load_bit.
  by rewrite H.
Qed.

Lemma overflow_pending m : bit (overflow m) INTCON TMR0IF = true.
Proof. destruct m. by prog_simpl. Qed.

(** C2. Entered with the overflow-pending indicator asserted, the
    interrupt routine performs exactly three stores, in this order: it
    clears [INTCON.TMR0IF], sets [Flags.Bit.Timeout], and writes to
    [LATB.LATB0] the negation of what it has just read there.  It reads
    nothing but those two hardware bits, returns no value, and leaves
    every other bit of every byte, both [TimerState] variables and the
    buffer as they were. *)
Theorem handler_contract (m : machine) :
  bit m INTCON TMR0IF = true →
  log (InterruptHandlerHigh m) =
    [ Rd (Bit INTCON TMR0IF) 1;
      Wr (Bit INTCON TMR0IF) 0;
      Wr (Bit Flags Timeout) 1;
      Rd (Bit LATB LATB0) (Z.b2z (bit m LATB LATB0));
      Wr (Bit LATB LATB0) (Z.b2z (negb (bit m LATB LATB0))) ]
  ∧ bit (final (InterruptHandlerHigh m)) INTCON TMR0IF = false
  ∧ bit (final (InterruptHandlerHigh m)) Flags Timeout = true
  ∧ bit (final (InterruptHandlerHigh m)) LATB LATB0 = negb (bit m LATB LATB0)
  ∧ (∀ r i,
       ¬ (r = INTCON ∧ i = TMR0IF) →
       ¬ (r = Flags ∧ i = Timeout) →
       ¬ (r = LATB ∧ i = LATB0) →
       bit (final (InterruptHandlerHigh m)) r i = bit m r i)
  ∧ State (final (InterruptHandlerHigh m)) = State m
  ∧ state (final (InterruptHandlerHigh m)) = state m
  ∧ buffer (final (InterruptHandlerHigh m)) = buffer m.
Proof.
  intros H. destruct m as [f S s buf]. unfold_prog. rewrite H. upd_simpl.
  split_and!; try done.
  - by bits_simpl.
  - by bits_simpl.
  - by bits_simpl.
  - intros r i H1 H2 H3. unfold upd.
    repeat case_decide; subst; try done;
      apply testbit_with_bit_ne; try side; intros <-; tauto.
Qed.

Lemma handler_contract_witness :
  bit (overflow power_on) INTCON TMR0IF = true
  ∧ bit (final (InterruptHandlerHigh (overflow power_on))) LATB LATB0 = true.
Proof.
  split; [reflexivity|].
  destruct (handler_contract (overflow power_on)) as (_ & _ & _ & H & _);
    [reflexivity|].
  exact H.
Defined.

(** ** Toggling *)

Lemma overflow_event_LATB0 m :
  bit (overflow_event m) LATB LATB0 = negb (bit m LATB LATB0).
Proof. destruct m. by prog_simpl. Qed.

Lemma overflow_event_Timeout m : bit (overflow_event m) Flags Timeout = true.
Proof. destruct m. by prog_simpl. Qed.

Lemma of_nat_mod_2 (N : nat) : Z.of_nat N mod 2 = Z.b2z (Nat.odd N).
Proof.
  rewrite <- Z.bit0_mod, Z.bit0_odd. f_equal.
  induction N as [|N IH]; [done|].
  rewrite Nat2Z.inj_succ, Z.odd_succ, Nat.odd_succ.
  by rewrite <- Z.negb_odd, <- Nat.negb_odd, IH.
Qed.

Lemma toggle_bool (N : nat) (m : machine) :
  bit (Nat.iter N overflow_event m) LATB LATB0
  = xorb (bit m LATB LATB0) (Nat.odd N).
Proof.
  induction N as [|N IH].
  - cbn [Nat.iter nat_rect Nat.odd Nat.even negb]. by destruct (bit m LATB LATB0).
  - rewrite Nat.iter_succ, overflow_event_LATB0, IH, Nat.odd_succ.
    rewrite <- Nat.negb_odd. by destruct (bit m LATB LATB0), (Nat.odd N).
Qed.

(** C4. After [N] consecutive timer overflows, each one serviced by a
    run of the interrupt routine that finds [TMR0IF] set, LED-A
    ([LATB.LATB0]) is its initial value XORed with [N mod 2]. *)
Theorem toggle (N : nat) (m : machine) :
  (∀ k, bit (overflow (Nat.iter k overflow_event m)) INTCON TMR0IF = true)
  ∧ Z.b2z (bit (Nat.iter N overflow_event m) LATB LATB0)
    = Z.lxor (Z.b2z (bit m LATB LATB0)) (Z.of_nat N mod 2).
Proof.
  split; [intros k; apply overflow_pending|].
  rewrite toggle_bool, of_nat_mod_2.
  by destruct (bit m LATB LATB0), (Nat.odd N).
Qed.

(** ** The body of the loop *)

Lemma testbit_mod256 v i : 0 ≤ i < 8 → Z.testbit (v mod 256) i = Z.testbit v i.
Proof. intros Hi. change 256 with (2 ^ 8). apply Z.mod_pow2_bits_low. lia. Qed.

Lemma strncpy_def : strncpy_bytes def 3 = [100; 101; 102].
Proof. reflexivity. Qed.

Lemma strcmp_abc_eq buf :
  strcmp abc buf = Some 0 ↔ take 4 buf = [97; 98; 99; 0].
Proof.
  unfold abc, cstring. cbn [app strcmp].
  destruct buf as [|c0 [|c1 [|c2 [|c3 buf]]]]; cbn;
    repeat case_decide; subst; cbn; try (split; congruence).
  all: split; try congruence; intros [= ]; try lia.
  by rewrite take_0.
Qed.

(** On a buffer of the declared size the comparison stays inside both
    arrays. *)
Lemma strcmp_abc_total buf : (4 ≤ length buf)%nat → is_Some (strcmp abc buf).
Proof.
  intros Hlen. destruct buf as [|c0 [|c1 [|c2 [|c3 buf]]]]; cbn in Hlen; try lia.
  unfold abc, cstring. cbn. repeat case_decide; try done; eexists; reflexivity.
Qed.

Lemma doloop_body_eq m :
  doloop_body m =
    ((), Machine (body_bytes m) (body_state m) (body_state m) (body_buffer m),
     body_log m).
Proof.
  destruct m as [f S s buf].
  unfold body_log, body_bytes, body_state, body_buffer.
  unfold_prog. upd_simpl. rewrite !testbit_mod256 by (cbv; intuition congruence).
  destruct (Z.testbit (f Flags) Timeout);
    destruct (decide (strcmp abc buf = Some 0));
    cbv beta iota zeta; upd_simpl; rewrite <- ?app_assoc; reflexivity.
Qed.

Lemma iteration_eq m :
  iteration m = Machine (body_bytes m) (body_state m) (body_state m) (body_buffer m).
Proof. unfold iteration. by rewrite doloop_body_eq. Qed.

(** The statements of lines 111-124, run one after the other from line
    111, are one pass through the body and end at the loop test. *)
Lemma run_iteration m :
  run (body_length m) (L111, m) = ((L109, iteration m), log (doloop_body m)).
Proof.
  rewrite iteration_eq, doloop_body_eq. destruct m as [f S s buf].
  unfold body_length, body_log, body_bytes, body_state, body_buffer, bit.
  cbn [bytes buffer].
  destruct (Z.testbit (f Flags) Timeout) eqn:Ht;
    destruct (decide (strcmp abc buf = Some 0)) as [He|He];
    cbv [Nat.add run]; unfold_prog; upd_simpl;
    rewrite ?testbit_mod256 by (cbv; intuition congruence);
    rewrite ?Ht; cbv beta iota zeta; upd_simpl;
    rewrite ?(decide_True _ _ He), ?(decide_False _ _ He);
    cbv beta iota zeta; upd_simpl;
    rewrite <- ?app_assoc, ?app_nil_r; reflexivity.
Qed.

Lemma observed_eq m : observed m = bit m Flags Timeout.
Proof.
  destruct m. unfold observed. unfold_prog. upd_simpl.
  apply testbit_mod256. cbv; intuition congruence.
Qed.

Lemma observed_branch m :
  result (stmt L112 (final (stmt L111 m))) = (if observed m then L114 else L119).
Proof. destruct m. unfold observed. by unfold_prog. Qed.

(** The flag-set branch of the body, effect by effect. *)
Lemma body_clears m :
  bit m Flags Timeout = true → Wr (Bit Flags Timeout) 0 ∈ log (doloop_body m).
Proof.
  intros Ht. rewrite doloop_body_eq. unfold log, body_log. cbn [snd].
  rewrite Ht, !elem_of_app, !elem_of_cons. naive_solver.
Qed.

Lemma iteration_Timeout m :
  bit m Flags Timeout = true → bit (iteration m) Flags Timeout = false.
Proof.
  intros Ht. rewrite iteration_eq. unfold body_bytes, bit in *. cbn [bytes].
  rewrite Ht. upd_simpl. by bits_simpl.
Qed.

Lemma iteration_LATB7 m :
  bit m Flags Timeout = true → bit (iteration m) LATB LATB7 = bit m LATB LATB0.
Proof.
  intros Ht. rewrite iteration_eq. unfold body_bytes, bit in *. cbn [bytes].
  rewrite Ht. upd_simpl. by bits_simpl.
Qed.

Lemma iteration_LATB0 m : bit (iteration m) LATB LATB0 = bit m LATB LATB0.
Proof.
  rewrite iteration_eq. unfold body_bytes, bit. cbn [bytes].
  destruct (Z.testbit (bytes m Flags) Timeout); upd_simpl; by bits_simpl.
Qed.



(** Closes a goal [e ∉ l] where [l] is an explicit log and [e] differs
    from each of its entries by a constructor. *)
Ltac no_event :=
  rewrite ?elem_of_app, ?elem_of_cons, ?elem_of_nil, ?elem_of_lookup_imap;
  let H := fresh in
  intros H; destruct_or?; try (destruct H as (? & ? & ? & _)); by simplify_eq.

(** C9. A pass through the body ends with the global [State] equal to
    [Running] when it observed the Timeout Flag set and to [Stopped]
    otherwise.  Nothing in the program loads [State]: no statement of
    [doloop], of the interrupt routine or of [main] has a read of it in
    its log, and the value [State] holds before a statement or a run of
    the interrupt routine has no influence on where control goes next,
    on the accesses made, or on any byte, on the static [state] or on
    the buffer afterwards. *)
Theorem State_is_dead :
  (∀ m, State (iteration m) = if observed m then Running else Stopped)
  ∧ (∀ p m v, Rd GlobalState v ∉ log (stmt p m))
  ∧ (∀ m v, Rd GlobalState v ∉ log (InterruptHandlerHigh m))
  ∧ (∀ m v, Rd GlobalState v ∉ log (main m))
  ∧ (∀ p m s,
       result (stmt p (set_State s m)) = result (stmt p m)
       ∧ log (stmt p (set_State s m)) = log (stmt p m)
       ∧ bytes (final (stmt p (set_State s m))) = bytes (final (stmt p m))
       ∧ state (final (stmt p (set_State s m))) = state (final (stmt p m))
       ∧ buffer (final (stmt p (set_State s m))) = buffer (final (stmt p m)))
  ∧ (∀ m s,
       log (InterruptHandlerHigh (set_State s m)) = log (InterruptHandlerHigh m)
       ∧ final (InterruptHandlerHigh (set_State s m))
         = set_State s (final (InterruptHandlerHigh m))).
Proof.
  split_and!.
  - intros m. by rewrite observed_eq, iteration_eq.
  - intros p [f S s buf] v. destruct p; unfold_prog; no_event.
  - intros [f S s buf] v. unfold_prog.
    destruct (Z.testbit (f INTCON) TMR0IF); cbv beta iota zeta; no_event.
  - intros [f S s buf] v. unfold_prog. no_event.
  - intros p [f S s' buf] s. by destruct p; unfold_prog.
  - intros [f S s' buf] s. unfold_prog.
    by destruct (Z.testbit (f INTCON) TMR0IF).
Qed.

(** ** The buffer *)

Lemma rewritten_differs buf :
  strcmp abc buf = Some 0 →
  strcmp abc (list_inserts 3 [100; 101; 102] buf) ≠ Some 0.
Proof.
  intros He Hc. apply strcmp_abc_eq in He, Hc.
  assert (Hlen : (4 ≤ length buf)%nat).
  { apply (f_equal length) in He. rewrite length_take in He.
    change (length [97; 98; 99; 0]) with 4%nat in He.
    pose proof (Nat.le_min_r 4 (length buf)). lia. }
  assert (H3 : take 4 (list_inserts 3 [100; 101; 102] buf) !! 3%nat = Some 100).
  { rewrite lookup_take_lt by lia.
    rewrite list_lookup_inserts by (cbn; lia). done. }
  rewrite Hc in H3. done.
Qed.

Lemma tick_buffer p m :
  p ≠ L122 → buffer (final (stmt p m)) = buffer m.
Proof. destruct m. by destruct p; unfold_prog. Qed.

Lemma tick_L122 m :
  stmt L122 m =
    (L124, set_buffer (list_inserts 3 [100; 101; 102] (buffer m)) m,
     [Wr (Buf 3) 100; Wr (Buf 4) 101; Wr (Buf 5) 102]).
Proof. by destruct m. Qed.

Lemma tick_to_L122 p m :
  result (stmt p m) = L122 → p = L120 ∧ strcmp abc (buffer m) = Some 0.
Proof.
  destruct m. destruct p; unfold_prog; try done.
  - by case_decide.
  - by destruct (Z.testbit _ _).
  - by case_decide.
Qed.

Lemma service_buffer m : buffer (final (service m)) = buffer m.
Proof.
  destruct m as [f S s buf]. unfold_prog.
  by destruct (Z.testbit _ _).
Qed.

(** Once the buffer does not compare equal to "abc" it is never written
    again. *)
Lemma exec_buffer_settled c tr c' :
  exec c tr c' →
  strcmp abc (buffer c.2) ≠ Some 0 → c.1 ≠ L122 →
  buffer_writes tr = 0%nat ∧ buffer c'.2 = buffer c.2.
Proof.
  induction 1 as [c|c l c1 ls c2 Hstep _ IH]; [done|].
  intros Hne Hpc. destruct Hstep as [p m Hp|p m Hirq]; cbn [fst snd] in *.
  - destruct IH as [IH1 IH2].
    + by rewrite tick_buffer.
    + intros Hto. apply tick_to_L122 in Hto as [_ Hto]. done.
    + split; [|by rewrite IH2, tick_buffer].
      unfold buffer_writes in *. cbn. by destruct p.
  - destruct IH as [IH1 IH2]; [by rewrite service_buffer|done|].
    split; [done|by rewrite IH2, service_buffer].
Qed.

Lemma exec_buffer_once c tr c' :
  exec c tr c' →
  (c.1 = L122 → strcmp abc (buffer c.2) = Some 0) →
  (buffer_writes tr ≤ 1)%nat.
Proof.
  induction 1 as [c|c l c1 ls c2 Hstep Hexec IH]; [cbn; lia|].
  intros Hinv. destruct Hstep as [p m Hp|p m Hirq]; cbn [fst snd] in *.
  - destruct (decide (p = L122)) as [->|Hne].
    + rewrite tick_L122 in Hexec |- *.
      apply exec_buffer_settled in Hexec as [Hexec _]; cbn; [|by apply rewritten_differs; auto|done].
      unfold buffer_writes in *. cbn. lia.
    + transitivity (buffer_writes ls).
      { unfold buffer_writes. cbn. by destruct p. }
      apply IH. intros Hto. apply tick_to_L122 in Hto as [-> Hto].
      by rewrite tick_buffer.
  - transitivity (buffer_writes ls); [done|].
    apply IH. rewrite service_buffer. done.
Qed.

Lemma iteration_buffer_settled n m :
  strcmp abc (buffer m) ≠ Some 0 →
  buffer (Nat.iter n iteration m) = buffer m.
Proof.
  intros Hne. induction n as [|n IH]; [done|].
  rewrite Nat.iter_succ, iteration_eq. cbn [buffer]. unfold body_buffer.
  rewrite IH. by rewrite decide_False.
Qed.

(** C10. In a pass through the body, when the 16 byte buffer compares
    equal to the C string abc (its first four bytes are 'a', 'b', 'c',
    NUL) the bytes at offsets 3, 4 and 5 become 'd', 'e', 'f',
    every other byte (the one at offset 6 included: no terminator is
    stored) keeps its value, and the buffer no longer compares equal to
    abc; when it does not compare equal the buffer is unchanged.
    Hence every pass after the first leaves the buffer as the first left
    it, and in any execution of the loop, interrupted or not, at most one
    statement stores into the buffer. *)
Theorem buffer_rewrite (m : machine) :
  length (buffer m) = 16%nat →
  (strcmp abc (buffer m) = Some 0 ↔ take 4 (buffer m) = [97; 98; 99; 0])
  ∧ (strcmp abc (buffer m) = Some 0 →
     buffer (iteration m) !! 3%nat = Some 100
     ∧ buffer (iteration m) !! 4%nat = Some 101
     ∧ buffer (iteration m) !! 5%nat = Some 102
     ∧ (∀ i : nat, i ≠ 3%nat → i ≠ 4%nat → i ≠ 5%nat →
          buffer (iteration m) !! i = buffer m !! i)
     ∧ strcmp abc (buffer (iteration m)) ≠ Some 0)
  ∧ (strcmp abc (buffer m) ≠ Some 0 → buffer (iteration m) = buffer m)
  ∧ length (buffer (iteration m)) = 16%nat
  ∧ (∀ n, buffer (Nat.iter (S n) iteration m) = buffer (iteration m))
  ∧ (∀ tr c', exec (L109, m) tr c' → (buffer_writes tr ≤ 1)%nat).
Proof.
  intros Hlen. rewrite iteration_eq. cbn [buffer]. unfold body_buffer.
  split_and!.
  - apply strcmp_abc_eq.
  - intros He. rewrite decide_True by done. split_and!.
    + by rewrite list_lookup_inserts by (cbn; lia).
    + by rewrite list_lookup_inserts by (cbn; lia).
    + by rewrite list_lookup_inserts by (cbn; lia).
    + intros i H3 H4 H5. destruct (decide (i < 3)%nat).
      * by rewrite list_lookup_inserts_lt.
      * rewrite list_lookup_inserts_ge; [done|cbn; lia].
    + by apply rewritten_differs.
  - intros Hne. by rewrite decide_False.
  - case_decide; [by rewrite length_inserts|done].
  - intros n. rewrite Nat.iter_succ_r.
    rewrite iteration_buffer_settled; rewrite iteration_eq; cbn [buffer]; [done|].
    unfold body_buffer. case_decide; [by apply rewritten_differs|done].
  - intros tr c' Hexec. by apply exec_buffer_once in Hexec.
Qed.

Lemma buffer_rewrite_witness :
  length (buffer abc_machine) = 16%nat
  ∧ strcmp abc (buffer abc_machine) = Some 0
  ∧ buffer (iteration abc_machine) !! 3%nat = Some 100.
Proof.
  split; [reflexivity|]. split; [reflexivity|].
  destruct (buffer_rewrite abc_machine) as (_ & H & _); [reflexivity|].
  destruct H as [H _]; [reflexivity|]. exact H.
Defined.

(** ** Executions *)

Lemma exec_app c t1 c' t2 c'' :
  exec c t1 c' → exec c' t2 c'' → exec c (t1 ++ t2) c''.
Proof.
  induction 1 as [|c l c1 ls c2 Hstep _ IH]; [done|].
  intros H2. cbn. eapply exec_cons; [done|]. by apply IH.
Qed.

Lemma exec_app_inv c t1 t2 c'' :
  exec c (t1 ++ t2) c'' → ∃ c', exec c t1 c' ∧ exec c' t2 c''.
Proof.
  revert c. induction t1 as [|l t1 IH]; intros c H; cbn in H.
  - exists c. split; [constructor|done].
  - inversion H as [|? ? c1 ? ? Hstep Hrest]; subst.
    apply IH in Hrest as (c' & H1 & H2).
    exists c'. split; [by eapply exec_cons|done].
Qed.

(** A property kept by every step is kept by every execution. *)
Lemma exec_invariant (P : config → Prop) c tr c' :
  (∀ c1 l c2, P c1 → step c1 l c2 → P c2) →
  exec c tr c' → P c → P c'.
Proof.
  intros Hstep. induction 1 as [|c l c1 ls c2 Hs _ IH]; [done|].
  intros Hc. apply IH. by eapply Hstep.
Qed.

Lemma replay_exec s c :
  replay_ok s c = true → exec c (replay s c).1 (replay s c).2.
Proof.
  revert c. induction s as [|[|] s IH]; intros [p m] Hok; cbn [replay replay_ok] in *.
  - constructor.
  - apply andb_true_iff in Hok as [Hp Hok]. apply bool_decide_eq_true in Hp.
    specialize (IH _ Hok). cbn [fst snd] in *.
    destruct (replay s _) as [tr c']. eapply exec_cons; [|exact IH].
    by apply step_tick.
  - apply andb_true_iff in Hok as [Hen Hok]. apply andb_true_iff in Hen as [H1 H2].
    specialize (IH _ Hok). cbn [fst snd] in *.
    destruct (replay s _) as [tr c']. eapply exec_cons; [|exact IH].
    by apply step_irq.
Qed.

(** ** What a statement of the loop leaves alone *)

Lemma tick_loop p m : bytes (final (stmt p m)) loop = bytes m loop.
Proof. destruct m. destruct p; unfold_prog; by upd_simpl. Qed.

Lemma tick_LATB0 p m : bit (final (stmt p m)) LATB LATB0 = bit m LATB LATB0.
Proof. destruct m. destruct p; unfold_prog; upd_simpl; by bits_simpl. Qed.

Lemma tick_INTCON p m : bytes (final (stmt p m)) INTCON = bytes m INTCON.
Proof. destruct m. destruct p; unfold_prog; by upd_simpl. Qed.

Lemma tick_Flags p m :
  p ≠ L115 → bytes (final (stmt p m)) Flags = bytes m Flags.
Proof. destruct m. destruct p; unfold_prog; by upd_simpl. Qed.

Lemma tick_L109 m :
  stmt L109 m =
    (if decide (bytes m loop = 0) then L126 else L111, m,
     [Rd (Byte loop) (bytes m loop)]).
Proof. by destruct m. Qed.

Lemma tick_L112 m :
  stmt L112 m =
    (if bit m flg Timeout then L114 else L119, m,
     [Rd (Bit flg Timeout) (Z.b2z (bit m flg Timeout))]).
Proof. by destruct m. Qed.

Lemma tick_L115 m : bit (final (stmt L115 m)) Flags Timeout = false.
Proof. destruct m. unfold_prog. upd_simpl. by bits_simpl. Qed.

Lemma tick_L111_flg m :
  bit (final (stmt L111 m)) flg Timeout = bit m Flags Timeout.
Proof. apply observed_eq. Qed.

Lemma tick_returns p m : result (stmt p m) = L126 → p = L109 ∨ p = L126.
Proof.
  destruct m. destruct p; unfold_prog; auto; try done.
  - by destruct (Z.testbit _ _).
  - by case_decide.
Qed.

(** ** What the interrupt routine leaves alone *)

Lemma service_loop m : bytes (final (service m)) loop = bytes m loop.
Proof.
  destruct m as [f S s buf]. unfold_prog. upd_simpl. bits_simpl.
  cbv beta iota zeta. by upd_simpl.
Qed.

Lemma service_Timeout m : bit (final (service m)) Flags Timeout = true.
Proof. apply overflow_event_Timeout. Qed.

Lemma service_enabled m : irq_enabled m → irq_enabled (final (service m)).
Proof.
  destruct m as [f S s buf]. unfold irq_enabled. by prog_simpl.
Qed.

Lemma tick_enabled p m : irq_enabled m → irq_enabled (final (stmt p m)).
Proof. unfold irq_enabled, bit. by rewrite tick_INTCON. Qed.

(** ** The loop never returns *)

Lemma step_looping c l c' : looping c → step c l c' → looping c'.
Proof.
  intros [Hpc Hloop]. destruct 1 as [p m Hp|p m Hirq]; cbn [fst snd] in *.
  - split; cbn [fst snd]; [|by rewrite tick_loop].
    intros Hret. destruct (tick_returns _ _ Hret) as [-> | ->]; [|done].
    rewrite tick_L109 in Hret. unfold result in Hret. cbn [fst] in Hret.
    by rewrite decide_False in Hret.
  - split; cbn [fst snd]; [done|by rewrite service_loop].
Qed.

Lemma step_loop_value c l c' : step c l c' → bytes c'.2 loop = bytes c.2 loop.
Proof.
  destruct 1; cbn [snd]; [apply tick_loop|apply service_loop].
Qed.

Lemma exec_loop_value c tr c' : exec c tr c' → bytes c'.2 loop = bytes c.2 loop.
Proof.
  induction 1 as [|c l c1 ls c2 Hs _ IH]; [done|].
  by rewrite IH, (step_loop_value _ _ _ Hs).
Qed.

Lemma run_looping n c : looping c → looping (run n c).1.
Proof.
  revert c. induction n as [|n IH]; intros [p m] Hc; [exact Hc|].
  cbn [run fst snd]. destruct (stmt p m) as [[p' m'] es] eqn:Hs.
  specialize (IH (p', m')). destruct (run n (p', m')) as [c'' es'].
  apply IH. pose proof (step_tick p m (proj1 Hc)) as Hstep.
  rewrite Hs in Hstep. exact (step_looping _ _ _ Hc Hstep).
Qed.

Lemma ticks_exec n c :
  looping c → exec c (ticks n c) (run n c).1 ∧ overflows (ticks n c) = 0%nat.
Proof.
  revert c. induction n as [|n IH]; intros [p m] Hc; [split; [constructor|done]|].
  cbn [run ticks fst snd].
  pose proof (step_tick p m (proj1 Hc)) as Hstep.
  destruct (IH (result (stmt p m), final (stmt p m))) as [IH1 IH2];
    [exact (step_looping _ _ _ Hc Hstep)|].
  unfold result, final in *. destruct (stmt p m) as [[p' m'] es]. cbn [fst snd] in *.
  destruct (run n (p', m')) as [c'' es']. cbn [fst] in *.
  split; [by eapply exec_cons|done].
Qed.

Lemma boot_config m0 :
  (boot m0).1 = L109
  ∧ bytes (boot m0).2 loop = 1
  ∧ bit (boot m0).2 Flags Timeout = false
  ∧ irq_enabled (boot m0).2.
Proof.
  destruct m0 as [f S s buf]. unfold irq_enabled. unfold_prog. upd_simpl.
  split_and!; try done; bits_simpl; done.
Qed.

Lemma boot_looping m0 : looping (boot m0).
Proof.
  destruct (boot_config m0) as (Hp & Hl & _). split; [by rewrite Hp|by rewrite Hl].
Qed.

(** With a zero argument only the loop test ever runs. *)
Lemma exec_zero_loop c tr c' :
  exec c tr c' →
  bytes c.2 loop = 0 → c.1 = L109 ∨ c.1 = L126 →
  ∀ p p' es, Tick p p' es ∈ tr → p = L109 ∧ p' = L126.
Proof.
  induction 1 as [|c l c1 ls c2 Hs _ IH]; intros Hz Hpc p0 p0' es0 Hin.
  - by apply elem_of_nil in Hin.
  - destruct Hs as [p m Hp|p m Hirq]; cbn [fst snd] in *.
    + destruct Hpc as [-> | ->]; [|done].
      rewrite tick_L109 in *. unfold result, final, log in *. cbn [fst snd] in *.
      rewrite decide_True in * by done.
      apply elem_of_cons in Hin as [Hin|Hin]; [by simplify_eq|].
      eapply IH; eauto.
    + apply elem_of_cons in Hin as [Hin|Hin]; [done|].
      eapply IH; [by rewrite service_loop|done|done].
Qed.

(** C7. [doloop] runs while its argument, converted to [char], is
    nonzero; nothing in the loop changes it.  Called with zero it makes
    the loop test once and returns: under any schedule of interrupts the
    only statement of [doloop] that ever runs is that test, falling
    through to the return.  Called with a nonzero argument it never
    reaches the return, [loop] keeps its value, a next statement is
    always ready to run, and any number of statements can be run.  [main]
    calls it with 1. *)
Theorem doloop_continuation (arg : Z) (m : machine) :
  -128 ≤ arg < 256 →
  (arg = 0 →
     stmt L109 (final (call_doloop arg m))
       = (L126, final (call_doloop arg m), [Rd (Byte loop) 0])
     ∧ ∀ tr c', exec (result (call_doloop arg m), final (call_doloop arg m)) tr c' →
         ∀ p p' es, Tick p p' es ∈ tr → p = L109 ∧ p' = L126)
  ∧ (arg ≠ 0 →
     (∀ tr c', exec (result (call_doloop arg m), final (call_doloop arg m)) tr c' →
        c'.1 ≠ L126
        ∧ bytes c'.2 loop = arg mod 256
        ∧ ∃ p' es m', step c' (Tick c'.1 p' es) (p', m'))
     ∧ (∀ n, ∃ c', exec (result (call_doloop arg m), final (call_doloop arg m))
                        (ticks n (result (call_doloop arg m), final (call_doloop arg m))) c'
                   ∧ length (ticks n (result (call_doloop arg m), final (call_doloop arg m))) = n))
  ∧ (∀ m0, boot m0 = (L109, final (main m0)) ∧ bytes (final (main m0)) loop = 1).
Proof.
  intros Harg.
  assert (Hcall : result (call_doloop arg m) = L109
                  ∧ bytes (final (call_doloop arg m)) loop = arg mod 256).
  { destruct m. unfold_prog. by upd_simpl. }
  destruct Hcall as [Hpc Hloop]. rewrite Hpc. split_and!.
  - intros ->. split.
    + rewrite tick_L109, Hloop. done.
    + intros tr c' Hexec. eapply exec_zero_loop; [done|cbn [snd]; by rewrite Hloop|by left].
  - intros Hnz.
    assert (Hmod : arg mod 256 ≠ 0).
    { intros H0. apply Z.mod_divide in H0 as [k Hk]; lia. }
    assert (Hl : looping (L109, final (call_doloop arg m))).
    { split; [done|]. cbn [snd]. by rewrite Hloop. }
    split.
    + intros tr c' Hexec.
      assert (Hl' : looping c').
      { eapply exec_invariant; [|done|done]. intros; by eapply step_looping. }
      split_and!.
      * apply Hl'.
      * by rewrite (exec_loop_value _ _ _ Hexec).
      * destruct c' as [p' m']. destruct Hl' as [Hp' _].
        eexists _, _, _. by apply step_tick.
    + intros n. exists (run n (L109, final (call_doloop arg m))).1.
      split; [by apply ticks_exec|].
      generalize (L109, final (call_doloop arg m)). clear.
      induction n as [|n IH]; intros c; [done|]. cbn. by rewrite IH.
  - intros [f S s buf]. unfold_prog. by upd_simpl.
Qed.

Lemma doloop_continuation_witness :
  -128 ≤ 1 < 256
  ∧ (run 20 (result (call_doloop 1 power_on), final (call_doloop 1 power_on))).1.1 ≠ L126.
Proof.
  split; [lia|].
  destruct (doloop_continuation 1 power_on) as (_ & H & _); [lia|].
  destruct H as [H _]; [lia|].
  refine (proj1 (H (ticks 20 (L109, final (call_doloop 1 power_on))) _ _)).
  apply ticks_exec. split; vm_compute; discriminate.
Defined.

(** ** Who writes the Timeout Flag *)

Lemma step_sets c l c' :
  step c l c' →
  bit c.2 Flags Timeout = false → bit c'.2 Flags Timeout = true →
  is_irq l = true.
Proof.
  destruct 1 as [p m Hp|p m Hirq]; cbn [fst snd]; [|done].
  intros H0 H1. destruct (decide (p = L115)) as [->|Hne].
  - by rewrite tick_L115 in H1.
  - unfold bit in *. rewrite tick_Flags in H1 by done. congruence.
Qed.

Lemma step_clears c l c' :
  step c l c' →
  bit c.2 Flags Timeout = true → bit c'.2 Flags Timeout = false →
  ∃ es, l = Tick L115 L116 es.
Proof.
  destruct 1 as [p m Hp|p m Hirq]; cbn [fst snd].
  - intros H1 H0. destruct (decide (p = L115)) as [->|Hne].
    + by eexists.
    + unfold bit in *. rewrite tick_Flags in H0 by done. congruence.
  - intros _ H0. by rewrite service_Timeout in H0.
Qed.

(** C8. [main] leaves the Timeout Flag clear when it enters the loop
    (its [Flags.Byte = 0] is the only store to the whole byte).  From
    then on every store to the flag made by a statement of [doloop]
    stores 0 and every store to it made by the interrupt routine stores
    1; neither stores to [Flags.Byte].  In terms of states: a step that
    takes the flag from clear to set is a run of the interrupt routine,
    and a step that takes it from set to clear is the statement of line
    115. *)
Theorem Timeout_write_discipline :
  (∀ m0, bit (boot m0).2 Flags Timeout = false
         ∧ Wr (Byte Flags) 0 ∈ log (main m0))
  ∧ (∀ p m v, Wr (Bit Flags Timeout) v ∈ log (stmt p m) → v = 0)
  ∧ (∀ m v, Wr (Bit Flags Timeout) v ∈ log (InterruptHandlerHigh m) → v = 1)
  ∧ (∀ p m v, Wr (Byte Flags) v ∉ log (stmt p m))
  ∧ (∀ m v, Wr (Byte Flags) v ∉ log (InterruptHandlerHigh m))
  ∧ (∀ c l c', step c l c' →
       bit c.2 Flags Timeout = false → bit c'.2 Flags Timeout = true →
       is_irq l = true)
  ∧ (∀ c l c', step c l c' →
       bit c.2 Flags Timeout = true → bit c'.2 Flags Timeout = false →
       ∃ es, l = Tick L115 L116 es).
Proof.
  split_and!.
  - intros m0. split; [apply boot_config|].
    destruct m0. unfold_prog. rewrite !elem_of_app, !elem_of_cons.
    by repeat left.
  - intros p [f S s buf] v. destruct p; unfold_prog;
      rewrite ?elem_of_app, ?elem_of_cons, ?elem_of_nil, ?elem_of_lookup_imap;
      intros H; destruct_or?; try (destruct H as (? & ? & ? & _)); by simplify_eq.
  - intros [f S s buf] v. unfold_prog.
    destruct (Z.testbit (f INTCON) TMR0IF); cbv beta iota zeta;
      rewrite ?elem_of_app, ?elem_of_cons, ?elem_of_nil;
      intros H; destruct_or?; by simplify_eq.
  - intros p [f S s buf] v. destruct p; unfold_prog; no_event.
  - intros [f S s buf] v. unfold_prog.
    destruct (Z.testbit (f INTCON) TMR0IF); cbv beta iota zeta; no_event.
  - apply step_sets.
  - apply step_clears.
Qed.

(** ** Counting observations against overflows *)

Lemma observations_cons l tr :
  observations (l :: tr) = (Nat.b2n (observes l) + observations tr)%nat.
Proof. unfold observations. cbn. by destruct (observes l). Qed.

Lemma overflows_cons l tr :
  overflows (l :: tr) = (Nat.b2n (is_irq l) + overflows tr)%nat.
Proof. unfold overflows. cbn. by destruct (is_irq l). Qed.

Lemma observations_app t1 t2 :
  observations (t1 ++ t2) = (observations t1 + observations t2)%nat.
Proof. unfold observations. by rewrite List.filter_app, length_app. Qed.

Lemma overflows_app t1 t2 :
  overflows (t1 ++ t2) = (overflows t1 + overflows t2)%nat.
Proof. unfold overflows. by rewrite List.filter_app, length_app. Qed.

Lemma tick_next p m : result (stmt p m) = next p m.
Proof. destruct m. by destruct p. Qed.

Lemma step_credit c l c' :
  step c l c' →
  (Nat.b2n (observes l) + credit c' ≤ Nat.b2n (is_irq l) + credit c)%nat.
Proof.
  destruct 1 as [p m Hp|p m Hirq].
  - assert (HF : p ≠ L115 → bit (final (stmt p m)) Flags Timeout = bit m Flags Timeout).
    { intros Hne. unfold bit. by rewrite tick_Flags. }
    assert (H115 : p = L115 → bit (final (stmt p m)) Flags Timeout = false).
    { intros ->. apply tick_L115. }
    assert (H111 : p = L111 → bit (final (stmt p m)) flg Timeout = bit m Flags Timeout).
    { intros ->. apply tick_L111_flg. }
    pose proof (tick_next p m) as Hn.
    generalize dependent (final (stmt p m)). generalize dependent (result (stmt p m)).
    generalize (log (stmt p m)). intros es p' -> m' HF H115 H111.
    unfold credit. cbn [fst snd is_irq Nat.b2n].
    destruct p; try done; cbn [next observes Nat.b2n];
      rewrite ?H115, ?H111, ?HF by done;
      repeat case_decide;
      repeat match goal with |- context [bit ?m ?r ?i] => destruct (bit m r i) end;
      cbn; lia.
  - cbn [observes is_irq Nat.b2n]. unfold credit. cbn [fst snd].
    pose proof (service_Timeout m) as Hs. rewrite Hs, orb_true_r.
    destruct p; cbn; lia.
Qed.

Lemma exec_credit c tr c' :
  exec c tr c' →
  (observations tr + credit c' ≤ overflows tr + credit c)%nat.
Proof.
  induction 1 as [|c l c1 ls c2 Hs _ IH]; [cbn; lia|].
  rewrite observations_cons, overflows_cons.
  pose proof (step_credit _ _ _ Hs). lia.
Qed.

Lemma boot_credit m0 : credit (boot m0) = 0%nat.
Proof.
  destruct (boot_config m0) as (Hp & _ & Hf & _).
  unfold credit. by rewrite Hp, Hf.
Qed.

(** Observing iterations never outnumber overflow events. *)
Lemma observations_le_overflows m0 tr c :
  exec (boot m0) tr c → (observations tr ≤ overflows tr)%nat.
Proof.
  intros H. apply exec_credit in H. rewrite boot_credit in H. lia.
Qed.

(** With nothing owed and no further overflow, nothing is observed. *)
Lemma quiet_no_observation c tr c' :
  exec c tr c' → overflows tr = 0%nat → credit c = 0%nat →
  observations tr = 0%nat.
Proof.
  intros H Hq Hc. apply exec_credit in H. lia.
Qed.

(** ** Idle iterations *)

Lemma tick_LATB p m : p ≠ L116 → bytes (final (stmt p m)) LATB = bytes m LATB.
Proof. destruct m. destruct p; unfold_prog; by upd_simpl. Qed.

Lemma service_LATB7 m : bit (final (service m)) LATB LATB7 = bit m LATB LATB7.
Proof. destruct m as [f S s buf]. by prog_simpl. Qed.

Lemma tick_to_branch p m :
  in_branch p = false → in_branch (next p m) = true →
  p = L112 ∧ next p m = L114.
Proof.
  destruct p; cbn [next in_branch]; try done.
  - by case_decide.
  - by destruct (bit m flg Timeout).
  - by case_decide.
Qed.

(** As long as no iteration observes the flag, LED-B keeps its value,
    whatever runs of the interrupt routine fall in between. *)
Lemma exec_idle_LATB7 c tr c' :
  exec c tr c' → observations tr = 0%nat → in_branch c.1 = false →
  bit c'.2 LATB LATB7 = bit c.2 LATB LATB7.
Proof.
  induction 1 as [|c l c1 ls c2 Hs _ IH]; [done|].
  rewrite observations_cons. intros Hobs Hpc.
  destruct Hs as [p m Hp|p m Hirq]; cbn [fst snd] in *.
  - rewrite tick_next in *.
    destruct (in_branch (next p m)) eqn:Hn.
    + destruct (tick_to_branch _ _ Hpc Hn) as [-> Hto].
      rewrite Hto in Hobs. cbn in Hobs. lia.
    + rewrite IH by (done || lia). unfold bit. rewrite tick_LATB; [done|].
      by intros ->.
  - rewrite IH by (done || lia). apply service_LATB7.
Qed.

(** C6. A pass through the body that observes the Timeout Flag clear
    changes no byte other than the register copy [flg]: the whole of
    [LATB] (both LEDs) and the whole of [Flags] are as before, and the
    only stores of the pass go to [flg], to the two [TimerState]
    variables and to the buffer.  Also with interrupts: in any execution
    from line 111 in which no iteration observes the flag, LED-B keeps
    its value. *)
Theorem idle (m : machine) :
  observed m = false →
  bit (iteration m) LATB LATB7 = bit m LATB LATB7
  ∧ bit (iteration m) LATB LATB0 = bit m LATB LATB0
  ∧ bit (iteration m) Flags Timeout = bit m Flags Timeout
  ∧ (∀ r, r ≠ flg → bytes (iteration m) r = bytes m r)
  ∧ (∀ o v, Wr o v ∈ log (doloop_body m) →
       o = Byte flg ∨ o = StaticState ∨ o = GlobalState ∨ ∃ i, o = Buf i)
  ∧ (∀ tr c', exec (L111, m) tr c' → observations tr = 0%nat →
       bit c'.2 LATB LATB7 = bit m LATB LATB7).
Proof.
  rewrite observed_eq. intros Ht.
  rewrite iteration_eq, doloop_body_eq.
  unfold log, body_log, body_bytes, bit in *. cbn [snd bytes].
  rewrite Ht. split_and!; upd_simpl; try done.
  - intros r Hr. by upd_simpl.
  - intros o v. rewrite !elem_of_app, !elem_of_cons, elem_of_nil, elem_of_lookup_imap.
    intros H. destruct_or!; simplify_eq; eauto.
    + by destruct H as (? & ? & ? & _).
    + destruct (decide _); [|by apply elem_of_nil in H].
      rewrite !elem_of_cons, elem_of_nil in H. destruct_or!; simplify_eq; eauto 10.
  - intros tr c' Hexec Hobs. by apply (exec_idle_LATB7 _ _ _ Hexec).
Qed.

Lemma idle_witness :
  observed power_on = false ∧ bytes (iteration power_on) LATB = 0.
Proof.
  split; [reflexivity|].
  destruct (idle power_on) as (_ & _ & _ & H & _); [reflexivity|].
  rewrite H; [reflexivity|discriminate].
Defined.

(** ** A set flag is observed *)

Lemma ticks_length n c : length (ticks n c) = n.
Proof. revert c. induction n as [|n IH]; intros c; [done|]. cbn. by rewrite IH. Qed.

Lemma within_mono N N' c :
  (N ≤ N')%nat → observes_within N c → observes_within N' c.
Proof. intros Hle (n & Hn & Ho). exists n. split; [lia|done]. Qed.

Lemma within_here m : bit m flg Timeout = true → observes_within 1 (L112, m).
Proof.
  intros Ht. exists 1%nat. split; [done|].
  cbn [ticks fst snd]. rewrite observations_cons, tick_next. cbn [next].
  by rewrite Ht.
Qed.

Lemma within_step N p m :
  ¬ (p = L112 ∧ next p m = L114) →
  observes_within N (next p m, final (stmt p m)) →
  observes_within (S N) (p, m).
Proof.
  intros Hno (n & Hn & Ho). exists (S n). split; [lia|].
  cbn [ticks fst snd]. rewrite observations_cons, tick_next, Ho.
  assert (observes (Tick p (next p m) (log (stmt p m))) = false) as ->; [|done].
  destruct p; try done. destruct (next L112 m) eqn:?; try done. by destruct Hno.
Qed.

Lemma tick_pending p m : p ≠ L115 → pending m → pending (final (stmt p m)).
Proof.
  intros Hp [Ht Hl]. split; [|by rewrite tick_loop].
  unfold bit. by rewrite tick_Flags.
Qed.

Lemma within_L111 m : pending m → observes_within 2 (L111, m).
Proof.
  intros [Ht _]. apply within_step; [by intros [? _]|]. cbn [next].
  apply within_here. by rewrite tick_L111_flg.
Qed.

Lemma within_L109 m : pending m → observes_within 3 (L109, m).
Proof.
  intros Hm. apply within_step; [by intros [? _]|]. cbn [next].
  rewrite decide_False by apply Hm. rewrite tick_L109. by apply within_L111.
Qed.

Lemma within_L124 m : pending m → observes_within 4 (L124, m).
Proof.
  intros Hm. apply within_step; [by intros [? _]|]. cbn [next].
  apply within_L109. by apply tick_pending.
Qed.

Lemma within_L122 m : pending m → observes_within 5 (L122, m).
Proof.
  intros Hm. apply within_step; [by intros [? _]|]. cbn [next].
  apply within_L124. by apply tick_pending.
Qed.

Lemma within_L120 m : pending m → observes_within 6 (L120, m).
Proof.
  intros Hm. apply within_step; [by intros [? _]|]. cbn [next].
  case_decide.
  - apply within_L122. by apply tick_pending.
  - apply (within_mono 4); [lia|]. apply within_L124. by apply tick_pending.
Qed.

Lemma within_L119 m : pending m → observes_within 7 (L119, m).
Proof.
  intros Hm. apply within_step; [by intros [? _]|]. cbn [next].
  apply within_L120. by apply tick_pending.
Qed.

Lemma within_L116 m : pending m → observes_within 7 (L116, m).
Proof.
  intros Hm. apply within_step; [by intros [? _]|]. cbn [next].
  apply within_L120. by apply tick_pending.
Qed.

Lemma within_L112 m : pending m → observes_within 8 (L112, m).
Proof.
  intros Hm. destruct (bit m flg Timeout) eqn:Ht.
  - apply (within_mono 1); [lia|]. by apply within_here.
  - apply within_step; [cbn [next]; rewrite Ht; by intros [_ ?]|].
    cbn [next]. rewrite Ht. apply within_L119. by apply tick_pending.
Qed.

Lemma pending_observed p m :
  pending m → in_window p = false → p ≠ L126 → observes_within 8 (p, m).
Proof.
  intros Hm Hw Hp. destruct p; try done.
  - apply (within_mono 3); [lia|]. by apply within_L109.
  - apply (within_mono 2); [lia|]. by apply within_L111.
  - by apply within_L112.
  - apply (within_mono 7); [lia|]. by apply within_L116.
  - apply (within_mono 7); [lia|]. by apply within_L119.
  - apply (within_mono 6); [lia|]. by apply within_L120.
  - apply (within_mono 5); [lia|]. by apply within_L122.
  - apply (within_mono 4); [lia|]. by apply within_L124.
Qed.

Lemma step_enabled c l c' : irq_enabled c.2 → step c l c' → irq_enabled c'.2.
Proof.
  intros Hen. destruct 1; cbn [snd] in *; [by apply tick_enabled|by apply service_enabled].
Qed.

(** ** Loss of a signal *)

(** C1, as amended.  In every execution from the entry of [main] into
    [doloop], with the interrupt routine free to run between any two
    statements (interrupts stay enabled throughout): the iterations that
    observe the Timeout Flag set never outnumber the overflow events;
    every overflow event leaves the flag set; and whenever the flag is
    set while the loop is outside the window between a successful test
    (line 112) and the clear (line 115), the loop, run on without a
    further overflow, observes it exactly once, within 8 statements. *)
Theorem no_loss_amended (m0 : machine) (tr : list label) (c : config) :
  exec (boot m0) tr c →
  (observations tr ≤ overflows tr)%nat
  ∧ irq_enabled c.2
  ∧ (∀ es c', step c (Irq es) c' → bit c'.2 Flags Timeout = true)
  ∧ (bit c.2 Flags Timeout = true → in_window c.1 = false →
       ∃ tr' c', exec c tr' c' ∧ overflows tr' = 0%nat
                 ∧ observations tr' = 1%nat ∧ (length tr' ≤ 8)%nat).
Proof.
  intros Hexec.
  assert (Hl : looping c).
  { eapply exec_invariant; [|done|apply boot_looping].
    intros; by eapply step_looping. }
  split_and!.
  - by eapply observations_le_overflows.
  - eapply (exec_invariant (λ c, irq_enabled c.2)); [|done|apply boot_config].
    intros; by eapply step_enabled.
  - intros es c' Hs. inversion Hs; subst. cbn [snd]. apply service_Timeout.
  - intros Ht Hw. destruct c as [p m]. cbn [fst snd] in *.
    destruct (pending_observed p m) as (n & Hn & Ho); [|done|apply Hl|].
    { split; [done|apply Hl]. }
    destruct (ticks_exec n (p, m) Hl) as [He Hq].
    exists (ticks n (p, m)), (run n (p, m)).1.
    by rewrite ticks_length.
Qed.

Lemma no_loss_amended_witness :
  exec (boot power_on) (replay [T; I] (boot power_on)).1
       (replay [T; I] (boot power_on)).2
  ∧ (observations (replay [T; I] (boot power_on)).1
     ≤ overflows (replay [T; I] (boot power_on)).1)%nat.
Proof.
  assert (H : exec (boot power_on) (replay [T; I] (boot power_on)).1
                   (replay [T; I] (boot power_on)).2)
    by (apply replay_exec; reflexivity).
  split; [exact H|].
  exact (proj1 (no_loss_amended power_on _ _ H)).
Defined.

(** C1, as stated, fails.  From reset: the timer overflows once, line
    111 reads the flag, line 112 sees it set; the timer overflows again
    (the interrupt routine sets the flag, already set, between the
    loop's read and its clear); line 115 clears the flag.  Two overflow
    events have happened, one iteration has observed the flag, and
    however long the loop runs on without a further overflow no second
    observation follows.  The same count results when both overflows are
    serviced before line 111 reads the flag. *)
Lemma no_loss_counterexample :
  exec (boot power_on) (replay dropped_schedule (boot power_on)).1
       (replay dropped_schedule (boot power_on)).2
  ∧ shape <$> (replay dropped_schedule (boot power_on)).1
    = [ Some (L109, L111); None; Some (L111, L112); Some (L112, L114); None;
        Some (L114, L115); Some (L115, L116); Some (L116, L120);
        Some (L120, L124); Some (L124, L109) ]
  ∧ overflows (replay dropped_schedule (boot power_on)).1 = 2%nat
  ∧ bit (replay dropped_schedule (boot power_on)).2.2 Flags Timeout = false
  ∧ (∀ tr' c',
       exec (replay dropped_schedule (boot power_on)).2 tr' c' →
       overflows tr' = 0%nat →
       observations ((replay dropped_schedule (boot power_on)).1 ++ tr') = 1%nat)
  ∧ exec (boot power_on) (replay merged_schedule (boot power_on)).1
         (replay merged_schedule (boot power_on)).2
  ∧ overflows (replay merged_schedule (boot power_on)).1 = 2%nat
  ∧ (∀ tr' c',
       exec (replay merged_schedule (boot power_on)).2 tr' c' →
       overflows tr' = 0%nat →
       observations ((replay merged_schedule (boot power_on)).1 ++ tr') = 1%nat)
  ∧ ¬ no_loss.
Proof.
  assert (Hexec : exec (boot power_on) (replay dropped_schedule (boot power_on)).1
                       (replay dropped_schedule (boot power_on)).2)
    by (apply replay_exec; vm_compute; reflexivity).
  assert (Hovf : overflows (replay dropped_schedule (boot power_on)).1 = 2%nat)
    by (vm_compute; reflexivity).
  assert (Hquiet : ∀ s, observations (replay s (boot power_on)).1 = 1%nat →
       credit (replay s (boot power_on)).2 = 0%nat →
       ∀ tr' c',
       exec (replay s (boot power_on)).2 tr' c' →
       overflows tr' = 0%nat →
       observations ((replay s (boot power_on)).1 ++ tr') = 1%nat).
  { intros s Hone Hcredit tr' c' He Hq. rewrite observations_app, Hone.
    rewrite (quiet_no_observation _ _ _ He Hq Hcredit). reflexivity. }
  split_and!.
  - exact Hexec.
  - vm_compute. reflexivity.
  - exact Hovf.
  - vm_compute. reflexivity.
  - apply Hquiet; vm_compute; reflexivity.
  - apply replay_exec. vm_compute. reflexivity.
  - vm_compute. reflexivity.
  - apply Hquiet; vm_compute; reflexivity.
  - intros Hno. destruct (Hno _ _ _ Hexec) as (tr' & c' & He & Hq & Heq).
    rewrite (Hquiet dropped_schedule eq_refl eq_refl _ _ He Hq) in Heq.
    rewrite overflows_app, Hovf, Hq in Heq. discriminate.
Qed.

(** ** Handler outruns loop *)

Lemma last_irq tr :
  (1 ≤ overflows tr)%nat →
  ∃ tr1 es tr2, tr = tr1 ++ Irq es :: tr2 ∧ overflows tr2 = 0%nat.
Proof.
  induction tr as [|l tr IH]; [cbn; lia|].
  intros Hov. destruct (decide (overflows tr = 0%nat)) as [Hz|Hnz].
  - destruct l as [p p' es|es].
    + rewrite overflows_cons in Hov. cbn in Hov. lia.
    + by exists [], es, tr.
  - destruct IH as (tr1 & es & tr2 & -> & Hq); [lia|].
    by exists (l :: tr1), es, tr2.
Qed.

Lemma exec_quiet_LATB0 c tr c' :
  exec c tr c' → overflows tr = 0%nat →
  bit c'.2 LATB LATB0 = bit c.2 LATB LATB0.
Proof.
  induction 1 as [|c l c1 ls c2 Hs _ IH]; [done|].
  rewrite overflows_cons. intros Hq.
  destruct Hs as [p m Hp|p m Hirq]; cbn [is_irq Nat.b2n fst snd] in *; [|lia].
  rewrite IH by lia. apply tick_LATB0.
Qed.

(** The copy of line 116 gives LED-B the value LED-A has at that
    statement, in any execution. *)
Lemma tick_L116 m :
  bit (final (stmt L116 m)) LATB LATB7 = bit m LATB LATB0.
Proof. destruct m. by prog_simpl. Qed.

(** C5. When two overflow events are serviced before the loop runs, LED-A
    has been toggled twice (it is back at its value before the two
    events) and the flag is set; the pass through the body that follows
    observes the flag, executes the clear, ends with the flag clear and
    with LED-B equal to that latest LED-A, and the pass after it observes
    nothing.  In any execution from [main], whenever line 112 observes
    the flag set, some run of the interrupt routine has happened, and
    LED-A still holds the value the most recent run left. *)
Theorem handler_outruns_loop (m : machine) :
  bit (overflow_event m) LATB LATB0 = negb (bit m LATB LATB0)
  ∧ bit (overflow_event (overflow_event m)) LATB LATB0 = bit m LATB LATB0
  ∧ observed (overflow_event (overflow_event m)) = true
  ∧ Wr (Bit Flags Timeout) 0 ∈ log (doloop_body (overflow_event (overflow_event m)))
  ∧ bit (iteration (overflow_event (overflow_event m))) Flags Timeout = false
  ∧ bit (iteration (overflow_event (overflow_event m))) LATB LATB7
    = bit (overflow_event (overflow_event m)) LATB LATB0
  ∧ observed (iteration (overflow_event (overflow_event m))) = false
  ∧ (∀ m0 tr c es c',
       exec (boot m0) tr c → step c (Tick L112 L114 es) c' →
       ∃ tr1 es' tr2 c1,
         tr = tr1 ++ Irq es' :: tr2 ∧ overflows tr2 = 0%nat
         ∧ exec (boot m0) (tr1 ++ [Irq es']) c1
         ∧ bit c.2 LATB LATB0 = bit c1.2 LATB LATB0).
Proof.
  pose proof (overflow_event_Timeout (overflow_event m)) as Hset.
  split_and!.
  - apply overflow_event_LATB0.
  - rewrite !overflow_event_LATB0. apply negb_involutive.
  - by rewrite observed_eq.
  - by apply body_clears.
  - by apply iteration_Timeout.
  - by apply iteration_LATB7.
  - rewrite observed_eq. by apply iteration_Timeout.
  - intros m0 tr c es c' Hexec Hstep.
    assert (Hall : exec (boot m0) (tr ++ [Tick L112 L114 es]) c').
    { eapply exec_app; [done|]. eapply exec_cons; [done|constructor]. }
    apply observations_le_overflows in Hall.
    rewrite observations_app, overflows_app in Hall. cbn in Hall.
    destruct (last_irq tr) as (tr1 & es' & tr2 & -> & Hq); [lia|].
    replace (tr1 ++ Irq es' :: tr2) with ((tr1 ++ [Irq es']) ++ tr2) in Hexec
      by (by rewrite <- app_assoc).
    apply exec_app_inv in Hexec as (c1 & H1 & H2).
    exists tr1, es', tr2, c1. split_and!; try done.
    by apply (exec_quiet_LATB0 _ _ _ H2).
Qed.

Lemma handler_outruns_loop_witness :
  bit (iteration (overflow_event (overflow_event power_on))) LATB LATB7 = false
  ∧ ∃ tr1 es' tr2 c1,
      (replay [T; I; T] (boot power_on)).1 = tr1 ++ Irq es' :: tr2
      ∧ overflows tr2 = 0%nat
      ∧ exec (boot power_on) (tr1 ++ [Irq es']) c1
      ∧ bit (replay [T; I; T] (boot power_on)).2.2 LATB LATB0 = bit c1.2 LATB LATB0.
Proof.
  destruct (handler_outruns_loop power_on) as (_ & _ & _ & _ & _ & Hcopy & _ & Hlast).
  split; [rewrite Hcopy; reflexivity|].
  refine (Hlast power_on _ _ _ _ _ _).
  - apply (replay_exec [T; I; T]). reflexivity.
  - exact (step_tick L112 _ ltac:(discriminate)).
Defined.

(** ** Well-formedness is kept *)

Lemma upd_range r v f :
  0 ≤ v < 256 → (∀ r', 0 ≤ f r' < 256) → ∀ r', 0 ≤ upd r v f r' < 256.
Proof. intros Hv Hf r'. unfold upd. by case_decide. Qed.

Lemma mod256_range v : 0 ≤ v mod 256 < 256.
Proof. apply Z.mod_pos_bound. lia. Qed.

Lemma tick_wf p m : wf m → wf (final (stmt p m)).
Proof.
  destruct m as [f S s buf]. intros [Hb Hlen]. cbn [bytes buffer] in *.
  destruct p; unfold_prog; split; cbn [bytes buffer];
    rewrite ?length_inserts; try done;
    repeat first [ apply upd_range | apply mod256_range
                 | apply with_bit_range; [|cbv; intuition congruence] ];
    done.
Qed.

Lemma service_wf m : wf m → wf (final (service m)).
Proof.
  destruct m as [f S s buf]. intros [Hb Hlen]. cbn [bytes buffer] in *.
  assert (Hset : 0 ≤ Z.setbit (f INTCON) TMR0IF < 256)
    by (apply (with_bit_range _ _ true); [done|cbv; intuition congruence]).
  unfold_prog. upd_simpl. bits_simpl. cbv beta iota zeta.
  split; cbn [bytes buffer]; [|done].
  repeat first [ apply upd_range | apply with_bit_range; [|cbv; intuition congruence] ];
    done.
Qed.

Lemma boot_wf m0 : wf m0 → wf (boot m0).2.
Proof.
  destruct m0 as [f S s buf]. intros [Hb Hlen]. cbn [bytes buffer] in *.
  unfold_prog. split; cbn [bytes buffer]; [|done].
  repeat first [ apply upd_range | apply mod256_range
               | apply with_bit_range; [|cbv; intuition congruence] ];
    done.
Qed.

(** Every configuration reached from [main] on well-formed memory is
    well formed. *)
Lemma exec_wf m0 tr c : wf m0 → exec (boot m0) tr c → wf c.2.
Proof.
  intros Hwf Hexec.
  eapply (exec_invariant (λ c, wf c.2)); [|done|by apply boot_wf].
  intros c1 l c2 H1. destruct 1; cbn [snd] in *; [by apply tick_wf|by apply service_wf].
Qed.

(** ** The scenario of the specification, run

    LED-A and LED-B start low.  Overflow 1: LED-A high, flag set.  A pass
    through the body: flag clear, LED-B high.  Overflow 2: LED-A low,
    flag set.  A pass: LED-B low, flag clear. *)
Example scenario :
  let m1 := overflow_event power_on in
  let m2 := iteration m1 in
  let m3 := overflow_event m2 in
  let m4 := iteration m3 in
  (bit m1 LATB LATB0, bit m1 Flags Timeout) = (true, true)
  ∧ (bit m2 LATB LATB7, bit m2 Flags Timeout) = (true, false)
  ∧ (bit m3 LATB LATB0, bit m3 Flags Timeout) = (false, true)
  ∧ (bit m4 LATB LATB0, bit m4 LATB LATB7, bit m4 Flags Timeout)
    = (false, false, false).
Proof. vm_compute. by split_and!. Qed.

(** * Further properties of the program *)

(** ** The interrupt routine, entered again *)

Lemma handler_clears_pending m :
  bit (final (InterruptHandlerHigh m)) INTCON TMR0IF = false.
Proof.
  destruct (bit m INTCON TMR0IF) eqn:Hp.
  - destruct m as [f S s buf]. unfold_prog. rewrite Hp. upd_simpl. by bits_simpl.
  - by rewrite handler_idle.
Qed.

(** Entered again before the timer has overflowed anew, the interrupt
    routine finds [TMR0IF] clear and does nothing: it makes one read, no
    store, and leaves the machine exactly as its first run left it.  So
    one overflow toggles LED-A once, however often the vector is
    taken. *)
Theorem handler_reentry (m : machine) :
  InterruptHandlerHigh (final (InterruptHandlerHigh m))
  = ((), final (InterruptHandlerHigh m), [Rd (Bit INTCON TMR0IF) 0]).
Proof. apply handler_idle, handler_clears_pending. Qed.

(** ** What [main] sets up *)

(** Whatever memory holds at reset, [main] enters the loop with the
    Timeout Flag byte zero, the TMR0 interrupt and the global interrupt
    enabled and no overflow pending ([INTCON] is 0xA0), TMR0 at high
    priority, priority levels on, the timer cleared and running with
    prescaler 1:8, port B all outputs and [loop] equal to 1.  It changes
    no other bit of [RCON], and it touches neither [LATB] (the LEDs keep
    their reset levels), nor the buffer, nor either [TimerState]
    variable.  It reads nothing, and its last three stores are the
    global interrupt enable, [TRISB] and the argument of [doloop]: the
    flag is cleared and the timer configured before interrupts are
    enabled, and the pins become outputs only after. *)
Theorem main_configuration (m0 : machine) :
  bytes (final (main m0)) Flags = 0
  ∧ bytes (final (main m0)) INTCON = 0xA0
  ∧ bytes (final (main m0)) INTCON2 = 0x84
  ∧ bytes (final (main m0)) TMR0H = 0
  ∧ bytes (final (main m0)) TMR0L = 0
  ∧ bytes (final (main m0)) T0CON = 0x82
  ∧ bytes (final (main m0)) TRISB = 0
  ∧ bytes (final (main m0)) loop = 1
  ∧ bit (final (main m0)) RCON IPEN = true
  ∧ (∀ i, i ≠ IPEN → bit (final (main m0)) RCON i = bit m0 RCON i)
  ∧ bytes (final (main m0)) LATB = bytes m0 LATB
  ∧ buffer (final (main m0)) = buffer m0
  ∧ State (final (main m0)) = State m0
  ∧ state (final (main m0)) = state m0
  ∧ (∀ o v, Rd o v ∉ log (main m0))
  ∧ (∃ pre, log (main m0)
            = pre ++ [Wr (Bit INTCON GIEH) 1; Wr (Byte TRISB) 0; Wr (Byte loop) 1]
            ∧ Wr (Byte Flags) 0 ∈ pre
            ∧ Wr (Byte T0CON) 0x82 ∈ pre).
Proof.
  destruct m0 as [f S s buf]. unfold_prog. upd_simpl.
  split_and!; try reflexivity.
  - by bits_simpl.
  - intros i Hi. by bits_simpl.
  - intros o v. no_event.
  - eexists [_; _; _; _; _; _; _]. split; [reflexivity|].
    rewrite !elem_of_cons. split; [by left|]. do 6 right. by left.
Qed.

(** ** What the loop and the interrupt routine store to *)

(** The statements of [doloop] store only to the register copy [flg], to
    the Timeout bit of [Flags], to bit 7 of [LATB], to the two
    [TimerState] variables and to bytes 3, 4 and 5 of the buffer; the
    interrupt routine stores only to [TMR0IF], to the Timeout bit and to
    bit 0 of [LATB].  Hence no step of an execution changes any byte
    other than [INTCON], [Flags], [LATB] and [flg]: the timer and
    interrupt configuration, the pin directions and [loop] stay as
    [main] left them. *)
Theorem write_sets :
  (∀ p m o v, Wr o v ∈ log (stmt p m) →
     o ∈ [Byte flg; Bit Flags Timeout; Bit LATB LATB7; StaticState;
          GlobalState; Buf 3; Buf 4; Buf 5])
  ∧ (∀ m o v, Wr o v ∈ log (InterruptHandlerHigh m) →
       o ∈ [Bit INTCON TMR0IF; Bit Flags Timeout; Bit LATB LATB0])
  ∧ (∀ c l c' r, step c l c' →
       r ≠ INTCON → r ≠ Flags → r ≠ LATB → r ≠ flg →
       bytes c'.2 r = bytes c.2 r).
Proof.
  split_and!.
  - intros p m o v. destruct (decide (p = L122)) as [->|Hne].
    + rewrite tick_L122. unfold log. cbn [snd].
      rewrite !elem_of_cons, elem_of_nil.
      intros H; destruct_or?; simplify_eq; tauto.
    + destruct m as [f S s buf]. destruct p; try done; unfold_prog;
        rewrite ?elem_of_app, ?elem_of_cons, ?elem_of_nil, ?elem_of_lookup_imap;
        intros H; destruct_or?; try (destruct H as (? & ? & ? & _));
        simplify_eq; rewrite ?elem_of_cons; tauto.
  - intros [f S s buf] o v. unfold_prog.
    destruct (Z.testbit (f INTCON) TMR0IF); cbv beta iota zeta;
      rewrite ?elem_of_app, ?elem_of_cons, ?elem_of_nil;
      intros H; destruct_or?; simplify_eq; rewrite ?elem_of_cons; tauto.
  - intros c l c' r Hstep H1 H2 H3 H4.
    destruct Hstep as [p [f S s buf] Hp|p [f S s buf] Hirq]; cbn [snd].
    + destruct p; unfold_prog; by upd_simpl.
    + unfold_prog. upd_simpl. bits_simpl. cbv beta iota zeta. by upd_simpl.
Qed.

(** ** Who drives the LEDs *)

(** In any step of an execution: LED-A changes only in a run of the
    interrupt routine; LED-B changes only in the statement of line 116,
    and what it then takes is the value LED-A has at that statement; the
    six other bits of [LATB] never change. *)
Theorem LED_write_discipline :
  (∀ c l c', step c l c' →
     bit c'.2 LATB LATB0 ≠ bit c.2 LATB LATB0 → is_irq l = true)
  ∧ (∀ c l c', step c l c' →
       bit c'.2 LATB LATB7 ≠ bit c.2 LATB LATB7 →
       (∃ es, l = Tick L116 L120 es) ∧ bit c'.2 LATB LATB7 = bit c.2 LATB LATB0)
  ∧ (∀ c l c' i, step c l c' →
       i ≠ LATB0 → i ≠ LATB7 → bit c'.2 LATB i = bit c.2 LATB i).
Proof.
  split_and!.
  - intros c l c' [p m Hp|p m Hirq]; cbn [fst snd is_irq]; [|done].
    by rewrite tick_LATB0.
  - intros c l c' [p m Hp|p m Hirq]; cbn [fst snd].
    + destruct (decide (p = L116)) as [->|Hne].
      * intros _. split; [by eexists|apply tick_L116].
      * unfold bit. by rewrite tick_LATB.
    + by rewrite service_LATB7.
  - intros c l c' i [p m Hp|p m Hirq] H0 H7; cbn [fst snd].
    + destruct (decide (p = L116)) as [->|Hne].
      * destruct m. unfold_prog. upd_simpl. by bits_simpl.
      * unfold bit. by rewrite tick_LATB.
    + destruct m as [f S s buf]. unfold_prog. upd_simpl. bits_simpl.
      cbv beta iota zeta. upd_simpl. by bits_simpl.
Qed.

(** ** The LEDs agree after a pass *)

(** After one or more serviced overflows and one pass through the body,
    LED-B shows the level of LED-A and the Timeout Flag is clear. *)
Theorem leds_agree (N : nat) (m : machine) :
  bit (iteration (Nat.iter (S N) overflow_event m)) LATB LATB7
  = bit (iteration (Nat.iter (S N) overflow_event m)) LATB LATB0
  ∧ bit (iteration (Nat.iter (S N) overflow_event m)) Flags Timeout = false.
Proof.
  rewrite Nat.iter_succ.
  pose proof (overflow_event_Timeout (Nat.iter N overflow_event m)) as Hset.
  split.
  - by rewrite iteration_LATB7, iteration_LATB0.
  - by apply iteration_Timeout.
Qed.

(** ** The loop left alone settles *)

Lemma same_trans m1 m2 m3 : same m1 m2 → same m2 m3 → same m1 m3.
Proof.
  intros (Hb & HS & Hs & Hbuf) (Hb' & HS' & Hs' & Hbuf').
  split_and!; [intros r; by rewrite Hb|congruence..].
Qed.

Lemma iteration_same m m' : same m m' → same (iteration m) (iteration m').
Proof.
  intros (Hb & HS & Hs & Hbuf). rewrite !iteration_eq.
  unfold same, body_bytes, body_state, body_buffer, bit. cbn [bytes State state buffer].
  rewrite Hbuf, !Hb. split_and!; try done.
  intros r. destruct (Z.testbit (bytes m' Flags) Timeout);
    unfold upd; repeat case_decide; by rewrite ?Hb.
Qed.

Lemma iteration_flag_clear m : bit (iteration m) Flags Timeout = false.
Proof.
  destruct (bit m Flags Timeout) eqn:Ht; [by apply iteration_Timeout|].
  rewrite iteration_eq. unfold body_bytes, bit in *. cbn [bytes].
  rewrite Ht. by upd_simpl.
Qed.

Lemma iteration_buffer_differs m : strcmp abc (buffer (iteration m)) ≠ Some 0.
Proof.
  rewrite iteration_eq. cbn [buffer]. unfold body_buffer.
  case_decide; [by apply rewritten_differs|done].
Qed.

(** A pass that observes nothing and finds the buffer different from abc
    repeats itself. *)
Lemma iteration_settled_fixed m :
  bit m Flags Timeout = false →
  strcmp abc (buffer m) ≠ Some 0 →
  same (iteration (iteration m)) (iteration m).
Proof.
  intros Ht Hbuf. rewrite (iteration_eq (iteration m)).
  pose proof (iteration_flag_clear m) as Ht'.
  pose proof (iteration_buffer_differs m) as Hbuf'.
  unfold same, body_bytes, body_state, body_buffer.
  rewrite Ht', decide_False by done. cbn [bytes State state buffer].
  rewrite iteration_eq in *. unfold body_bytes, body_state, bit in *.
  cbn [bytes State state buffer] in *. rewrite Ht in *.
  split_and!; try done.
  intros r. unfold upd. repeat case_decide; subst; try done.
Qed.

(** With no overflow, the machine after two passes through the body is
    the machine after any larger number of passes: the first pass clears
    the flag (copying LED-A if it was set) and rewrites the buffer at
    most once, the second records [Stopped], and from then on a pass
    changes nothing. *)
Theorem quiescent (n : nat) (m : machine) :
  same (Nat.iter (2 + n) iteration m) (Nat.iter 2 iteration m).
Proof.
  induction n as [|n IH].
  - split_and!; done.
  - change (2 + S n)%nat with (S (2 + n)). rewrite Nat.iter_succ.
    eapply same_trans; [by apply iteration_same|].
    cbn [Nat.iter nat_rect]. apply iteration_settled_fixed.
    + apply iteration_flag_clear.
    + apply iteration_buffer_differs.
Qed.

(** ** Buffer accesses stay inside the buffer *)

Lemma strcmp_span_abc buf : (strcmp_span abc buf ≤ 4)%nat.
Proof.
  unfold abc, cstring.
  destruct buf as [|c0 [|c1 [|c2 [|c3 buf]]]]; cbn; repeat case_decide; lia.
Qed.

(** On the 16 byte buffer, the comparison of line 120 returns a result
    (it never reads past the end of either array), it reads only among
    the first four bytes of the buffer, and what it reads are the
    buffer's bytes; the copy of line 122 stores only at offsets 3 to 5,
    and the buffer keeps its 16 bytes. *)
Theorem buffer_accesses_in_bounds (m : machine) :
  length (buffer m) = 16%nat →
  is_Some (result (strcmp_buffer abc m))
  ∧ (∀ o v, Rd o v ∈ log (stmt L120 m) →
       ∃ i, o = Buf i ∧ (i < 4)%nat ∧ buffer m !! i = Some v)
  ∧ (∀ o v, Wr o v ∈ log (stmt L122 m) →
       ∃ i, o = Buf i ∧ (3 ≤ i < 6)%nat)
  ∧ length (buffer (final (stmt L120 m))) = 16%nat
  ∧ length (buffer (final (stmt L122 m))) = 16%nat.
Proof.
  intros Hlen. split_and!.
  - destruct m as [f S s buf]. unfold_prog. apply strcmp_abc_total.
    cbn in Hlen. lia.
  - intros o v. destruct m as [f S s buf]. unfold_prog.
    rewrite app_nil_r, elem_of_lookup_imap.
    intros (i & x & Heq & Hl). simplify_eq. exists i.
    apply lookup_take_Some in Hl as [Hl Hi].
    pose proof (strcmp_span_abc buf). split_and!; [done|lia|done].
  - intros o v. rewrite tick_L122. unfold log. cbn [snd].
    rewrite !elem_of_cons, elem_of_nil.
    intros H; destruct_or?; simplify_eq; eexists; (split; [done|lia]).
  - by rewrite tick_buffer.
  - rewrite tick_L122. unfold final. cbn [fst snd buffer set_buffer].
    by rewrite length_inserts.
Qed.

Lemma buffer_accesses_in_bounds_witness :
  length (buffer abc_machine) = 16%nat
  ∧ length (buffer (final (stmt L122 abc_machine))) = 16%nat.
Proof.
  split; [reflexivity|].
  destruct (buffer_accesses_in_bounds abc_machine) as (_ & _ & _ & _ & H);
    [reflexivity|exact H].
Defined.

(** ** Reachable memory is well formed *)

Lemma exec_wf_witness :
  wf power_on
  ∧ wf (replay [T; I; T; T] (boot power_on)).2.2.
Proof.
  assert (Hwf : wf power_on).
  { split; [intros r; cbn; lia|reflexivity]. }
  split; [exact Hwf|].
  refine (exec_wf power_on _ _ Hwf _).
  apply (replay_exec [T; I; T; T]). vm_compute. reflexivity.
Defined.

(** ** LED-B catches up *)

Lemma run_S n p m :
  (run (S n) (p, m)).1 = (run n (next p m, final (stmt p m))).1.
Proof.
  cbn [run fst snd]. rewrite <- tick_next. unfold result, final.
  destruct (stmt p m) as [[p' m'] es]. cbn [fst snd].
  by destruct (run n (p', m')).
Qed.

Lemma catches_mono N N' c : (N ≤ N')%nat → catches_up N c → catches_up N' c.
Proof. intros Hle (n & Hn & H). exists n. split; [lia|done]. Qed.

Lemma catches_step N p m :
  catches_up N (next p m, final (stmt p m)) → catches_up (S N) (p, m).
Proof.
  intros (n & Hn & H). exists (S n). split; [lia|]. by rewrite run_S.
Qed.

Lemma catches_L116 m : catches_up 1 (L116, m).
Proof.
  exists 1%nat. split; [done|]. rewrite run_S. cbn [run fst snd next].
  split; [done|]. by rewrite tick_L116, tick_LATB0.
Qed.

Lemma catches_L115 m : catches_up 2 (L115, m).
Proof. apply catches_step, catches_L116. Qed.

Lemma catches_L114 m : catches_up 3 (L114, m).
Proof. apply catches_step, catches_L115. Qed.

Lemma catches_L111 m : pending m → catches_up 5 (L111, m).
Proof.
  intros [Ht _]. do 2 apply catches_step. cbn [next].
  rewrite tick_L111_flg, Ht, tick_L112. apply catches_L114.
Qed.

Lemma catches_L109 m : pending m → catches_up 6 (L109, m).
Proof.
  intros Hm. apply catches_step. cbn [next].
  rewrite decide_False by apply Hm. rewrite tick_L109. by apply catches_L111.
Qed.

Lemma catches_L124 m : pending m → catches_up 7 (L124, m).
Proof.
  intros Hm. apply catches_step. cbn [next].
  apply catches_L109. by apply tick_pending.
Qed.

Lemma catches_L122 m : pending m → catches_up 8 (L122, m).
Proof.
  intros Hm. apply catches_step. cbn [next].
  apply catches_L124. by apply tick_pending.
Qed.

Lemma catches_L120 m : pending m → catches_up 9 (L120, m).
Proof.
  intros Hm. apply catches_step. cbn [next]. case_decide.
  - apply catches_L122. by apply tick_pending.
  - apply (catches_mono 7); [lia|]. apply catches_L124. by apply tick_pending.
Qed.

Lemma catches_L119 m : pending m → catches_up 10 (L119, m).
Proof.
  intros Hm. apply catches_step. cbn [next].
  apply catches_L120. by apply tick_pending.
Qed.

Lemma catches_L112 m : pending m → catches_up 11 (L112, m).
Proof.
  intros Hm. apply catches_step. cbn [next]. rewrite tick_L112.
  unfold final. cbn [fst snd]. destruct (bit m flg Timeout).
  - apply (catches_mono 3); [lia|]. apply catches_L114.
  - by apply catches_L119.
Qed.

Lemma run_LATB0 n c : bit (run n c).1.2 LATB LATB0 = bit c.2 LATB LATB0.
Proof.
  revert c. induction n as [|n IH]; intros [p m]; [done|].
  rewrite run_S, IH. cbn [snd]. apply tick_LATB0.
Qed.

(** Once the Timeout Flag is set, the loop, wherever it stands and run
    on without a further interrupt, is within 11 statements just past
    the copy of line 116 with LED-B equal to LED-A, which has not
    changed: LED-B lags LED-A by at most one pass of the loop. *)
Theorem led_b_catches_up (p : pc) (m : machine) :
  bit m Flags Timeout = true → bytes m loop ≠ 0 → p ≠ L126 →
  ∃ n, (n ≤ 11)%nat
       ∧ (run n (p, m)).1.1 = L120
       ∧ bit (run n (p, m)).1.2 LATB LATB7 = bit m LATB LATB0
       ∧ bit (run n (p, m)).1.2 LATB LATB0 = bit m LATB LATB0
       ∧ exec (p, m) (ticks n (p, m)) (run n (p, m)).1.
Proof.
  intros Ht Hl Hp.
  assert (Hm : pending m) by done.
  assert (Hc : catches_up 11 (p, m)).
  { destruct p; try done.
    - apply (catches_mono 6); [lia|]. by apply catches_L109.
    - apply (catches_mono 5); [lia|]. by apply catches_L111.
    - by apply catches_L112.
    - apply (catches_mono 3); [lia|]. apply catches_L114.
    - apply (catches_mono 2); [lia|]. apply catches_L115.
    - apply (catches_mono 1); [lia|]. apply catches_L116.
    - apply (catches_mono 10); [lia|]. by apply catches_L119.
    - apply (catches_mono 9); [lia|]. by apply catches_L120.
    - apply (catches_mono 8); [lia|]. by apply catches_L122.
    - apply (catches_mono 7); [lia|]. by apply catches_L124. }
  destruct Hc as (n & Hn & Hpc & Hled). exists n.
  pose proof (run_LATB0 n (p, m)) as HA. cbn [snd] in HA.
  split_and!; try done.
  - by rewrite Hled.
  - by apply ticks_exec.
Qed.

Lemma led_b_catches_up_witness :
  bit (overflow_event power_on) Flags Timeout = true
  ∧ bytes (set_bytes (upd loop 1 (bytes (overflow_event power_on)))
             (overflow_event power_on)) loop ≠ 0
  ∧ ∃ n, (n ≤ 11)%nat
         ∧ (run n (L109, set_bytes (upd loop 1 (bytes (overflow_event power_on)))
                           (overflow_event power_on))).1.1 = L120.
Proof.
  split; [reflexivity|]. split; [vm_compute; discriminate|].
  destruct (led_b_catches_up L109
              (set_bytes (upd loop 1 (bytes (overflow_event power_on)))
                 (overflow_event power_on)))
    as (n & Hn & Hpc & _); [reflexivity|vm_compute; discriminate|discriminate|].
  exists n. split; [exact Hn|exact Hpc].
Defined.

(** ** Without an overflow nothing shows *)

Lemma quiet_exec_inert c tr c' :
  exec c tr c' → overflows tr = 0%nat →
  bit c.2 Flags Timeout = false →
  (c.1 = L112 → bit c.2 flg Timeout = false) →
  in_branch c.1 = false →
  bytes c'.2 LATB = bytes c.2 LATB ∧ bit c'.2 Flags Timeout = false.
Proof.
  induction 1 as [|c l c1 ls c2 Hs _ IH]; [done|].
  rewrite overflows_cons. intros Hq Hf Hflg Hpc.
  destruct Hs as [p m Hp|p m Hirq]; cbn [is_irq Nat.b2n fst snd] in *; [|lia].
  rewrite tick_next in IH.
  assert (Hne : p ≠ L115 ∧ p ≠ L116) by (split; by intros ->).
  destruct Hne as [H115 H116].
  assert (Hf' : bit (final (stmt p m)) Flags Timeout = false).
  { unfold bit in *. by rewrite tick_Flags. }
  destruct IH as [IH1 IH2]; [lia|done| | |].
  - intros Hn. destruct p; cbn [next] in Hn; try done;
      try (by case_decide); [|by destruct (bit m flg Timeout)].
    by rewrite tick_L111_flg.
  - destruct p; cbn [next in_branch] in *; try done; try (by case_decide).
    by rewrite Hflg.
  - split; [|done]. by rewrite IH1, tick_LATB.
Qed.

(** From [main], as long as the timer has not overflowed, nothing
    visible happens however long the loop runs: [LATB] (both LEDs) is
    what it was at reset, the Timeout Flag stays clear and no iteration
    observes it. *)
Theorem inert_without_overflow (m0 : machine) (tr : list label) (c : config) :
  exec (boot m0) tr c → overflows tr = 0%nat →
  bytes c.2 LATB = bytes m0 LATB
  ∧ bit c.2 Flags Timeout = false
  ∧ observations tr = 0%nat.
Proof.
  intros Hexec Hq.
  destruct (boot_config m0) as (Hpc & _ & Hf & _).
  destruct (quiet_exec_inert _ _ _ Hexec Hq Hf) as [HL HF].
  - by rewrite Hpc.
  - by rewrite Hpc.
  - split_and!; [|done|].
    + rewrite HL. destruct m0. unfold_prog. by upd_simpl.
    + apply observations_le_overflows in Hexec. lia.
Qed.

Lemma inert_without_overflow_witness :
  exec (boot power_on) (replay [T; T; T; T; T; T] (boot power_on)).1
       (replay [T; T; T; T; T; T] (boot power_on)).2
  ∧ overflows (replay [T; T; T; T; T; T] (boot power_on)).1 = 0%nat
  ∧ bytes (replay [T; T; T; T; T; T] (boot power_on)).2.2 LATB = 0.
Proof.
  assert (H : exec (boot power_on) (replay [T; T; T; T; T; T] (boot power_on)).1
                   (replay [T; T; T; T; T; T] (boot power_on)).2)
    by (apply replay_exec; vm_compute; reflexivity).
  split; [exact H|]. split; [vm_compute; reflexivity|].
  exact (proj1 (inert_without_overflow power_on _ _ H ltac:(vm_compute; reflexivity))).
Defined.

(** ** The flag and LED part and the buffer part of a pass are separate *)

(** What a pass does to the bytes (flag, LEDs, register copy) and to
    [State] depends only on the bytes, not on the buffer; what it does
    to the buffer depends only on the buffer.  The string comparison and
    copy of lines 120-123 have no influence on the timer and LED
    behaviour, and conversely. *)
Theorem pass_independence (m m' : machine) :
  ((∀ r, bytes m r = bytes m' r) →
     (∀ r, bytes (iteration m) r = bytes (iteration m') r)
     ∧ State (iteration m) = State (iteration m')
     ∧ state (iteration m) = state (iteration m'))
  ∧ (buffer m = buffer m' → buffer (iteration m) = buffer (iteration m')).
Proof.
  rewrite !iteration_eq. cbn [bytes State state buffer].
  unfold body_bytes, body_state, body_buffer, bit. split.
  - intros Hb. rewrite !Hb. split_and!; try done.
    intros r. destruct (Z.testbit (bytes m' Flags) Timeout);
      unfold upd; repeat case_decide; by rewrite ?Hb.
  - by intros ->.
Qed.
